(** * NNMF.py: non-negative factorisation of an imaging dataset

    A shallow embedding of [src/NNMF.py] (the XRay column selection, the
    batched NNLS projection, the noise-statistics pass and the script's
    control flow), followed by the properties stated about it.

    Conventions of the embedding.
    - numpy [float64] values are idealised as exact rationals [Q]; the two
      places where the script can produce non-finite values (the score
      division and the initial [np.inf] of [min_intensities]) use the
      extended type [fval].
    - An image is kept flattened, a [list Q] of [height * width] pixels, so
      [reshape] is the identity.  A matrix whose columns are images (the
      script's [x], [W], [H]) is the list of its columns.
    - Collaborators that live outside [src/] (the [.imzb] reader, the m/z axis
      generator, the block-pivoting NNLS solver, the random generator and a
      few numpy reductions) are fields of the record [Extern].
    - Python exceptions and [sys.exit] are values of [exn]; observable
      effects (the error message, opening the input, saving the archive) are
      recorded in a trace. *)

From Stdlib Require Import String Bool ZArith QArith Qround Lqa Lia List.
From Stdlib Require Import Permutation Sorted.
Import ListNotations.
Open Scope Q_scope.

(** ** Numbers *)

Definition vec := list Q.
Definition matrix := list vec.

Definition Qltb (a b : Q) : bool := negb (Qle_bool b a).

(** numpy doubles that may be infinite or NaN. *)
Inductive fval : Type :=
| NaN
| NInf
| Fin (q : Q)
| PInf.

(** ** Exceptions *)

Inductive exn : Type :=
| SystemExit (code : Z)
| AssertionError
| ValueError
| ZeroDivisionError
| IndexError.

Definition result (A : Type) : Type := (exn + A)%type.

Definition rbind {A B : Type} (c : result A) (k : A -> result B) : result B :=
  match c with
  | inl e => inl e
  | inr a => k a
  end.

Notation "x <- c ;; k" := (rbind c (fun x => k))
  (at level 61, c at next level, right associativity).
Notation "' p <- c ;; k" := (rbind c (fun x => let 'p := x in k))
  (at level 61, p pattern, c at next level, right associativity).

Fixpoint mapM {A B : Type} (f : A -> result B) (l : list A) : result (list B) :=
  match l with
  | [] => inr []
  | a :: l' => b <- f a ;; bs <- mapM f l' ;; inr (b :: bs)
  end.

(** ** Image cleaning (lines 42-45 and 132-133) *)

(** [img[img < 0] = 0] *)
Definition clamp_neg (img : vec) : vec :=
  map (fun v => if Qltb v 0 then 0 else v) img.

(** [img[img > perc] = perc] *)
Definition clamp_above (perc : Q) (img : vec) : vec :=
  map (fun v => if Qltb perc v then perc else v) img.

Fixpoint insert_sorted (v : Q) (l : vec) : vec :=
  match l with
  | [] => [v]
  | h :: t => if Qle_bool v h then v :: l else h :: insert_sorted v t
  end.

Definition np_sort (l : vec) : vec := fold_right insert_sorted [] l.

(** [np.percentile(img, q)] with numpy's default linear interpolation: the
    virtual index [q/100 * (n-1)] into the sorted data, interpolating between
    its two neighbours.  An empty array is rejected. *)
Definition np_percentile (img : vec) (q : Q) : result Q :=
  match img with
  | [] => inl IndexError
  | _ :: _ =>
      let s := np_sort img in
      let n := length img in
      let idx := (q / 100) * inject_Z (Z.of_nat (n - 1)) in
      let lo := Z.to_nat (Qfloor idx) in
      let hi := Nat.min (S lo) (n - 1) in
      let g := idx - inject_Z (Qfloor idx) in
      inr (nth lo s 0 + (nth hi s 0 - nth lo s 0) * g)
  end.

(** Body of the loop of [get_mz_images] for one fetched image. *)
Definition clean_image (img : vec) : result vec :=
  let img1 := clamp_neg img in
  perc <- np_percentile img1 99 ;;
  inr (clamp_above perc img1).

(** What the noise-statistics loop does to the image it fetches. *)
Definition clean_orig (img : vec) : vec := clamp_neg img.

(** ** Collaborators outside [src/] *)

Record Args : Type := {
  input : string;
  output : string;
  instrument : string;
  res200 : Q;
  rank : Z
}.

(** [cpyImagingMSpec.ImzbReader]: dataset bounds, image dimensions and the
    image query by (mass, tolerance). *)
Record Imzb : Type := {
  min_mz : Q;
  max_mz : Q;
  height : nat;
  width : nat;
  get_mz_image : Q -> Q -> vec
}.

Record Extern : Type := {
  ImzbReader : string -> Imzb;
  (** [generate_mz_axis(lo, hi, Instrument(args), step)] *)
  generate_mz_axis : Q -> Q -> Args -> Q -> list (Q * Q);
  (** [nnlsm_blockpivot(A, B)[0]]: one solution column per column of [B] *)
  nnlsm_blockpivot : matrix -> matrix -> matrix;
  (** [da.random.random(n)]: the probe of the given draw *)
  random_random : nat -> nat -> vec;
  np_argsort : vec -> list nat;
  np_sqrt : Q -> Q;
  np_median : vec -> Q;
  np_std : vec -> Q
}.

(** ** Vectors and matrices *)

Fixpoint dot (u v : vec) : Q :=
  match u, v with
  | a :: u', b :: v' => a * b + dot u' v'
  | _, _ => 0
  end.

Definition vsum (v : vec) : Q := fold_right Qplus 0 v.

Fixpoint map2 {A B C : Type} (f : A -> B -> C) (l : list A) (m : list B) : list C :=
  match l, m with
  | a :: l', b :: m' => f a b :: map2 f l' m'
  | _, _ => []
  end.

Definition vadd (u v : vec) : vec := map2 Qplus u v.
Definition vsub (u v : vec) : vec := map2 Qminus u v.
Definition vscale (c : Q) (v : vec) : vec := map (Qmult c) v.

(** [A.dot(h)] for a matrix of [npix] rows given by its columns. *)
Fixpoint mat_vec (npix : nat) (A : matrix) (h : vec) : vec :=
  match A, h with
  | a :: A', c :: h' => vadd (vscale c a) (mat_vec npix A' h')
  | _, _ => repeat 0 npix
  end.

Definition mat_mul (npix : nat) (A H : matrix) : matrix := map (mat_vec npix A) H.
Definition mat_sub (X Y : matrix) : matrix := map2 vsub X Y.

(** [x[:, cols]] *)
Definition select_cols (x : matrix) (cols : list nat) : matrix :=
  map (fun j => nth j x []) cols.

Fixpoint set_nth {A : Type} (i : nat) (v : A) (l : list A) : list A :=
  match l, i with
  | [], _ => []
  | _ :: t, O => v :: t
  | h :: t, S i' => h :: set_nth i' v t
  end.

(** ** Batching: [toolz.partition_all] *)

Fixpoint partition_go {A : Type} (n : nat) (acc : list A) (l : list A) : list (list A) :=
  match l with
  | [] => match acc with [] => [] | _ :: _ => [rev acc] end
  | a :: l' =>
      if Nat.eqb (length (a :: acc)) n
      then rev (a :: acc) :: partition_go n [] l'
      else partition_go n (a :: acc) l'
  end.

Definition partition_all {A : Type} (n : nat) (l : list A) : list (list A) :=
  partition_go n [] l.

(** ** NNLS projection (lines 75-86) *)

(** [result[:, chunk] = sol] *)
Definition assign_cols (result : matrix) (chunk : list nat) (sol : matrix) : matrix :=
  fold_left (fun r jc => set_nth (fst jc) (snd jc) r) (combine chunk sol) result.

Definition nnls_frob (ext : Extern) (x anchors : matrix) : matrix :=
  let ncols := length x in
  let x_sel := anchors in
  let result := repeat (repeat 0 (length x_sel)) ncols in
  fold_left
    (fun result chunk =>
       let residuals := select_cols x chunk in
       assign_cols result chunk (nnlsm_blockpivot ext x_sel residuals))
    (partition_all 100 (seq 0 ncols))
    result.

(** ** Column selection (lines 95-113) *)

(** numpy division of doubles, the divisor being a sum of non-negative
    products (so a zero divisor is [+0.0]). *)
Definition fdiv (a b : Q) : fval :=
  if Qeq_bool b 0
  then if Qeq_bool a 0 then NaN else if Qltb 0 a then PInf else NInf
  else Fin (a / b).

(** [a > b] in the order [np.argmax] uses: NaN is the largest value. *)
Definition fgt (a b : fval) : bool :=
  match a, b with
  | _, NaN => false
  | NaN, _ => true
  | _, PInf => false
  | PInf, _ => true
  | NInf, _ => false
  | Fin _, NInf => true
  | Fin x, Fin y => Qltb y x
  end.

Fixpoint argmax_from (best : nat) (bv : fval) (i : nat) (l : list fval) : nat :=
  match l with
  | [] => best
  | v :: t => if fgt v bv then argmax_from i v (S i) t else argmax_from best bv (S i) t
  end.

(** [np.argmax]: first position of the maximum; an empty array is an error. *)
Definition np_argmax (l : list fval) : result nat :=
  match l with
  | [] => inl ValueError
  | v :: t => inr (argmax_from 0 v 1 t)
  end.

(** [scores[cols] = -1] *)
Definition mask_selected (cols : list nat) (scores : list fval) : list fval :=
  fold_left (fun s j => set_nth j (Fin (-1)) s) cols scores.

Definition mem (j : nat) (cols : list nat) : bool := existsb (Nat.eqb j) cols.

(** [(R * x).sum(axis=0) / p.T.dot(x)] *)
Definition raw_scores (p : vec) (R x : matrix) : list fval :=
  map2 (fun r c => fdiv (dot r c) (dot p c)) R x.

Record xray_state : Type := {
  cols : list nat;
  R : matrix
}.

(** One iteration of the [while] loop. *)
Definition xray_step (ext : Extern) (npix : nat) (x : matrix) (st : xray_state)
  : result xray_state :=
  let p := random_random ext (length (cols st)) npix in
  let scores := mask_selected (cols st) (raw_scores p (R st) x) in
  best_col <- np_argmax scores ;;
  if mem best_col (cols st) then inl AssertionError
  else
    let cols' := cols st ++ [best_col] in
    let H := nnls_frob ext x (select_cols x cols') in
    inr {| cols := cols'; R := mat_sub x (mat_mul npix (select_cols x cols') H) |}.

(** [while len(cols) < r: ...]; [None] when the fuel is exhausted.  The
    second component counts the iterations performed. *)
Fixpoint xray_loop (ext : Extern) (npix : nat) (x : matrix) (r : Z)
    (fuel : nat) (iters : nat) (st : xray_state) : option (result (nat * xray_state)) :=
  if (Z.of_nat (length (cols st)) <? r)%Z then
    match fuel with
    | O => None
    | S fuel' =>
        match xray_step ext npix x st with
        | inl e => Some (inl e)
        | inr st' => xray_loop ext npix x r fuel' (S iters) st'
        end
    end
  else Some (inr (iters, st)).

(** The loop as the script enters it: [cols = []], [R = x]. *)
Definition xray (ext : Extern) (npix : nat) (x : matrix) (r : Z)
  : option (result (nat * xray_state)) :=
  xray_loop ext npix x r (Z.to_nat r) 0 {| cols := []; R := x |}.

(** ** Noise statistics (lines 124-155) *)

(** [np.minimum] on doubles. *)
Definition fmin (a b : fval) : fval :=
  match a, b with
  | NaN, _ | _, NaN => NaN
  | NInf, _ | _, NInf => NInf
  | PInf, v | v, PInf => v
  | Fin x, Fin y => Fin (if Qle_bool x y then x else y)
  end.

(** [min_intensities[mask] = np.minimum(min_intensities[mask], orig_img[mask])]
    with [mask = orig_img > 0]. *)
Definition update_min (min_intensities : list fval) (orig_img : vec) : list fval :=
  map2 (fun cur o => if Qltb 0 o then fmin cur (Fin o) else cur) min_intensities orig_img.

Record noise_acc : Type := {
  prob : list Q;
  sqrt_median : list Q;
  sqrt_std : list Q;
  min_intensities : list fval
}.

(** [diff[diff > 0]] *)
Definition positive_part (diff : vec) : vec := filter (fun d => Qltb 0 d) diff.

(** Body of the loop for bin number [i].  Line 134 raises an [IndexError]
    when [H_full] has no column [i] and a [ValueError] when the shapes do
    not fit: the column needs one entry per column of [W] for [W.dot], [W]
    needs height x width rows for [reshape], and the original image needs as
    many pixels for the subtraction. *)
Definition noise_step (ext : Extern) (imzb : Imzb) (W H_full : matrix)
    (acc : noise_acc) (i : nat) (bin : Q * Q) : result noise_acc :=
  let npix := (height imzb * width imzb)%nat in
  let orig_img := clean_orig (get_mz_image imzb (fst bin) (snd bin)) in
  match nth_error H_full i with
  | None => inl IndexError
  | Some h =>
      if negb (Nat.eqb (length h) (length W)) then inl ValueError
      else if negb (forallb (fun c => Nat.eqb (length c) npix) W) then inl ValueError
      else if negb (Nat.eqb (length orig_img) npix) then inl ValueError
      else
        let approx_img := mat_vec npix W h in
        let diff := vsub orig_img approx_img in
        let noise := positive_part diff in
        let min_int := update_min (min_intensities acc) orig_img in
        if Nat.eqb (width imzb * height imzb) 0 then inl ZeroDivisionError
        else
          let noise_prob :=
            inject_Z (Z.of_nat (length noise))
            / inject_Z (Z.of_nat (width imzb * height imzb)) in
          if Qltb 0 noise_prob then
            let noise' := map (np_sqrt ext) noise in
            inr {| prob := prob acc ++ [noise_prob];
                   sqrt_median := sqrt_median acc ++ [np_median ext noise'];
                   sqrt_std := sqrt_std acc ++ [np_std ext noise'];
                   min_intensities := min_int |}
          else
            inr {| prob := prob acc ++ [noise_prob];
                   sqrt_median := sqrt_median acc ++ [0];
                   sqrt_std := sqrt_std acc ++ [0];
                   min_intensities := min_int |}
  end.

(** [for i, (mz, ppm) in enumerate(mz_axis)] from position [i]. *)
Fixpoint noise_loop (ext : Extern) (imzb : Imzb) (W H_full : matrix)
    (acc : noise_acc) (i : nat) (mz_axis : list (Q * Q)) : result noise_acc :=
  match mz_axis with
  | [] => inr acc
  | bin :: rest =>
      acc' <- noise_step ext imzb W H_full acc i bin ;;
      noise_loop ext imzb W H_full acc' (S i) rest
  end.

Definition noise_pass (ext : Extern) (imzb : Imzb) (W H_full : matrix)
    (mz_axis : list (Q * Q)) : result noise_acc :=
  let init := {| prob := []; sqrt_median := []; sqrt_std := [];
                 min_intensities := repeat PInf (height imzb * width imzb) |} in
  noise_loop ext imzb W H_full init 0 mz_axis.

(** ** The script *)

Record Archive : Type := {
  saved_W : matrix;
  saved_H : matrix;
  saved_mz_axis : list (Q * Q);
  saved_shape : nat * nat;
  saved_noise_prob : list Q;
  saved_noise_sqrt_avg : list Q;
  saved_noise_sqrt_std : list Q;
  saved_min_intensities : list fval
}.

Inductive event : Type :=
| Stdout (s : string)
| OpenInput (path : string)
| SaveArchive (path : string) (a : Archive).

Definition K : nat := 100.
Definition N_bright : nat := 500.

(** [get_mz_images]: the cleaned images of one chunk of the axis. *)
Definition get_mz_images (imzb : Imzb) (mz_axis_chunk : list (Q * Q)) : result (list vec) :=
  mapM (fun bin => clean_image (get_mz_image imzb (fst bin) (snd bin))) mz_axis_chunk.

(** The dask array [arr], computed chunk by chunk. *)
Definition compute_arr (imzb : Imzb) (mz_axis : list (Q * Q)) : result (list vec) :=
  chunks <- mapM (get_mz_images imzb) (partition_all K mz_axis) ;;
  inr (concat chunks).

(** [mz_axis_chunks] and [chunks_mz] (lines 51 and 56). *)
Definition mz_axis_chunks (mz_axis : list (Q * Q)) : list (list (Q * Q)) :=
  partition_all K mz_axis.

Definition chunks_mz (mz_axis : list (Q * Q)) : list nat :=
  map (fun c => length c) (mz_axis_chunks mz_axis).

(** [da.Array(tasks, 'x', chunks=(chunks_mz, chunks_x, chunks_y))] (line 59):
    dask does not accept an empty tuple of chunk sizes, which is what an
    axis without bins gives. *)
Definition da_Array (sizes : list nat) : result unit :=
  match sizes with
  | [] => inl ValueError
  | _ :: _ => inr tt
  end.

Definition assert (b : bool) : result unit :=
  if b then inr tt else inl AssertionError.

(** Lines 29-162, after the rank check.  [None] only if the selection loop
    ran out of fuel. *)
Definition pipeline (ext : Extern) (args : Args) : option (result Archive) :=
  let imzb := ImzbReader ext (input args) in
  let mz_range := (min_mz imzb - (1 # 10), max_mz imzb + (1 # 10)) in
  let npix := (height imzb * width imzb)%nat in
  let before :=
    _ <- assert (Qltb 0 (fst mz_range)) ;;
    _ <- assert (Qltb 1 (snd mz_range)) ;;
    let mz_axis := generate_mz_axis ext (fst mz_range) (snd mz_range) args 1 in
    _ <- da_Array (chunks_mz mz_axis) ;;
    arr <- compute_arr imzb mz_axis ;;
    let image_intensities := map vsum arr in
    let bright_images_pos := firstn N_bright (rev (np_argsort ext image_intensities)) in
    let arr_pos := select_cols arr bright_images_pos in
    inr (mz_axis, arr, arr_pos) in
  match before with
  | inl e => Some (inl e)
  | inr (mz_axis, arr, x) =>
      match xray ext npix x (rank args) with
      | None => None
      | Some (inl e) => Some (inl e)
      | Some (inr (_, st)) =>
          let W := select_cols x (cols st) in
          let H_full := nnls_frob ext arr W in
          Some (acc <- noise_pass ext imzb W H_full mz_axis ;;
                inr {| saved_W := W;
                       saved_H := H_full;
                       saved_mz_axis := mz_axis;
                       saved_shape := (height imzb, width imzb);
                       saved_noise_prob := prob acc;
                       saved_noise_sqrt_avg := sqrt_median acc;
                       saved_noise_sqrt_std := sqrt_std acc;
                       saved_min_intensities := min_intensities acc |})
      end
  end.

Definition rank_message : string :=
  "Factorization rank must be at least 10! Exiting.
".

(** The whole script: the trace of observable effects and how it ended. *)
Definition main (ext : Extern) (args : Args) : option (list event * result unit) :=
  if (rank args <? 10)%Z then
    Some ([Stdout rank_message], inl (SystemExit 1))
  else
    match pipeline ext args with
    | None => None
    | Some (inl e) => Some ([OpenInput (input args)], inl e)
    | Some (inr a) => Some ([OpenInput (input args); SaveArchive (output args) a], inr tt)
    end.

(** ** A concrete instance, used to run the script on small data *)

Module Demo.

(** Exact NNLS when the anchors are collinear: all the weight goes to the
    first anchor that is not the zero vector. *)
Fixpoint nnls_column (A : matrix) (b : vec) : vec :=
  match A with
  | [] => []
  | a :: A' =>
      if Qeq_bool (dot a a) 0 then 0 :: nnls_column A' b
      else
        let h := dot a b / dot a a in
        (if Qltb h 0 then 0 else h) :: repeat 0 (length A')
  end.

Definition solver (A B : matrix) : matrix := map (nnls_column A) B.

Fixpoint insert_index (v : vec) (i : nat) (l : list nat) : list nat :=
  match l with
  | [] => [i]
  | j :: t => if Qle_bool (nth i v 0) (nth j v 0) then i :: l else j :: insert_index v i t
  end.

Definition argsort (v : vec) : list nat :=
  fold_right (insert_index v) [] (seq 0 (length v)).

Definition sqrt (q : Q) : Q := Z.sqrt (Qnum q) # Pos.sqrt (Qden q).

Definition median (v : vec) : Q :=
  let s := np_sort v in
  let n := length s in
  (nth ((n - 1) / 2) s 0 + nth (n / 2) s 0) / 2.

Definition mean (v : vec) : Q := vsum v / inject_Z (Z.of_nat (length v)).

Definition std (v : vec) : Q :=
  let m := mean v in
  sqrt (mean (map (fun a => (a - m) * (a - m)) v)).

(** A dataset of 1 x 2 images: the bin at mass [m] holds [m - 100] in its
    first pixel and a negative reading in its second. *)
Definition reader (path : string) : Imzb :=
  {| min_mz := 100; max_mz := 110; height := 1; width := 2;
     get_mz_image := fun mz ppm => [mz - 100; -1] |}.

Definition ext (axis : list (Q * Q)) : Extern :=
  {| ImzbReader := reader;
     generate_mz_axis := fun lo hi inst step => axis;
     nnlsm_blockpivot := solver;
     random_random := fun draw n => repeat (1 # 2) n;
     np_argsort := argsort;
     np_sqrt := sqrt;
     np_median := median;
     np_std := std |}.

Definition axis11 : list (Q * Q) :=
  map (fun k => (inject_Z (Z.of_nat (100 + k)), 1)) (seq 0 11).

Definition axis1 : list (Q * Q) := [(101, 1)].

Definition args (r : Z) : Args :=
  {| input := "in.imzb"; output := "out.npz"; instrument := "orbitrap";
     res200 := 140000; rank := r |}.

End Demo.

(** ** Vocabulary of the statements *)

Definition nonneg (v : vec) : Prop := Forall (Qle 0) v.
Definition nonneg_matrix (m : matrix) : Prop := Forall nonneg m.

(** The contract of the NNLS solver the script relies on. *)
Definition solver_nonneg (ext : Extern) : Prop :=
  forall A B, nonneg_matrix (nnlsm_blockpivot ext A B).

(** The solver treats the target columns independently. *)
Definition solver_columnwise (ext : Extern) : Prop :=
  exists solve1 : matrix -> vec -> vec,
    forall A B, nnlsm_blockpivot ext A B = map (solve1 A) B.

(** The reader returns images of the dataset's dimensions. *)
Definition reader_shape (imzb : Imzb) : Prop :=
  forall mz ppm, length (get_mz_image imzb mz ppm) = (height imzb * width imzb)%nat.

(** The image the noise pass works on for a bin. *)
Definition orig_of (imzb : Imzb) (bin : Q * Q) : vec :=
  clean_orig (get_mz_image imzb (fst bin) (snd bin)).

(** The reconstruction of bin number [i]. *)
Definition approx_of (imzb : Imzb) (W H_full : matrix) (i : nat) : vec :=
  mat_vec (height imzb * width imzb) W (nth i H_full []).

(** Number of pixels of an image of [npix] pixels where [orig - approx] is
    strictly positive, counted pixel by pixel. *)
Definition count_positive_diff (npix : nat) (orig approx : vec) : nat :=
  length (filter (fun k => Qltb 0 (nth k orig 0 - nth k approx 0)) (seq 0 npix)).

(** What the loop records for bin number [i]: probability, median, std. *)
Definition bin_record (ext : Extern) (imzb : Imzb) (W H_full : matrix)
    (ib : nat * (Q * Q)) : Q * Q * Q :=
  let noise := positive_part (vsub (orig_of imzb (snd ib)) (approx_of imzb W H_full (fst ib))) in
  let noise_prob :=
    inject_Z (Z.of_nat (length noise)) / inject_Z (Z.of_nat (width imzb * height imzb)) in
  if Qltb 0 noise_prob
  then (noise_prob, np_median ext (map (np_sqrt ext) noise), np_std ext (map (np_sqrt ext) noise))
  else (noise_prob, 0, 0).

(** The running minimum of one pixel over a sequence of readings. *)
Definition pixel_min (cur : fval) (readings : vec) : fval :=
  fold_left (fun cur o => if Qltb 0 o then fmin cur (Fin o) else cur) readings cur.

(** The contract of [argsort]: a permutation of the positions of its
    argument. *)
Definition argsort_permutes (ext : Extern) : Prop :=
  forall v, Permutation (np_argsort ext v) (seq 0 (length v)).

(** The order [np.argmax] compares with, non-strict: [fle a b] when [a] is
    not above [b]. *)
Definition fle (a b : fval) : Prop := fgt a b = false.

(** An NNLS solver that treats the target columns independently and whose
    solutions satisfy complementary slackness: the solution [h] is
    orthogonal to the correlations of the anchors with the residual
    [b - A.h].  Every exact NNLS solution does (it is one of the
    Karush-Kuhn-Tucker conditions). *)
Definition solver_slack (ext : Extern) (npix : nat) (solve1 : matrix -> vec -> vec) : Prop :=
  (forall A B, nnlsm_blockpivot ext A B = map (solve1 A) B)
  /\ forall A b,
       Forall (fun c => length c = npix) A -> length b = npix ->
       dot (solve1 A b) (map (dot (vsub b (mat_vec npix A (solve1 A b)))) A) == 0.

(** The random probe has no negative entry. *)
Definition probe_nonneg (ext : Extern) : Prop :=
  forall draw n, nonneg (random_random ext draw n).

(** The factors fit the dataset: every column of [W] has one entry per
    pixel, and [H_full] has one column per bin of the axis, each with one
    entry per column of [W]. *)
Definition factors_shape (imzb : Imzb) (W H_full : matrix) (mz_axis : list (Q * Q)) : Prop :=
  Forall (fun c => length c = (height imzb * width imzb)%nat) W
  /\ length H_full = length mz_axis
  /\ Forall (fun h => length h = length W) H_full.

(** * Properties *)

(** ** Comparisons *)

Lemma Qltb_true (a b : Q) : Qltb a b = true <-> a < b.
Proof.
  unfold Qltb. rewrite negb_true_iff, <- not_true_iff_false, Qle_bool_iff.
  split; [apply Qnot_le_lt | apply Qlt_not_le].
Qed.

Lemma Qltb_false (a b : Q) : Qltb a b = false <-> b <= a.
Proof.
  unfold Qltb. rewrite negb_false_iff. apply Qle_bool_iff.
Qed.

(** ** Generic list facts *)

Lemma map2_length {A B C : Type} (f : A -> B -> C) l m :
  length (map2 f l m) = Nat.min (length l) (length m).
Proof.
  revert m; induction l as [|a l IH]; intros [|b m]; simpl; auto.
Qed.

Lemma nth_map2 {A B C : Type} (f : A -> B -> C) l m k da db dc :
  (k < length l)%nat -> (k < length m)%nat ->
  nth k (map2 f l m) dc = f (nth k l da) (nth k m db).
Proof.
  revert m k; induction l as [|a l IH]; intros [|b m] [|k]; simpl; intros; try lia; auto.
  apply IH; lia.
Qed.

Lemma set_nth_length {A : Type} i (v : A) l : length (set_nth i v l) = length l.
Proof.
  revert i; induction l as [|h t IH]; intros [|i]; simpl; auto.
Qed.

Lemma set_nth_Forall {A : Type} (P : A -> Prop) i v l :
  P v -> Forall P l -> Forall P (set_nth i v l).
Proof.
  intros Hv Hl; revert i; induction Hl as [|h t Hh Ht IH]; intros [|i]; simpl; auto.
Qed.

Lemma nth_set_nth_same {A : Type} i (v d : A) l :
  (i < length l)%nat -> nth i (set_nth i v l) d = v.
Proof.
  revert i; induction l as [|h t IH]; intros [|i]; simpl; intros; try lia; auto.
  apply IH; lia.
Qed.

Lemma nth_set_nth_other {A : Type} i j (v d : A) l :
  i <> j -> nth j (set_nth i v l) d = nth j l d.
Proof.
  revert i j; induction l as [|h t IH]; intros [|i] [|j]; simpl; intros; auto; try lia.
Qed.

Lemma mapM_Forall2 {A B : Type} (f : A -> result B) l bs :
  mapM f l = inr bs -> Forall2 (fun a b => f a = inr b) l bs.
Proof.
  revert bs; induction l as [|a l IH]; simpl; intros bs H.
  - inversion H; constructor.
  - destruct (f a) as [e|b] eqn:Ea; simpl in H; [discriminate|].
    destruct (mapM f l) as [e|bs'] eqn:El; simpl in H; [discriminate|].
    inversion H; subst. constructor; auto.
Qed.

Lemma mapM_Forall {A B : Type} (f : A -> result B) (P : B -> Prop) l bs :
  (forall a b, f a = inr b -> P b) -> mapM f l = inr bs -> Forall P bs.
Proof.
  intros Hf H. apply mapM_Forall2 in H.
  induction H; constructor; eauto.
Qed.

Lemma Forall_concat {A : Type} (P : A -> Prop) ll :
  Forall (Forall P) ll -> Forall P (concat ll).
Proof.
  induction 1; simpl; auto. apply Forall_app; auto.
Qed.

Lemma Forall_nth_default {A : Type} (P : A -> Prop) l d k :
  P d -> Forall P l -> P (nth k l d).
Proof.
  intros Hd Hl; revert k; induction Hl; intros [|k]; simpl; auto.
Qed.

(** ** Cleaning keeps images non-negative *)

Lemma clamp_neg_nonneg img : nonneg (clamp_neg img).
Proof.
  unfold nonneg, clamp_neg. apply Forall_forall. intros v Hv.
  apply in_map_iff in Hv. destruct Hv as [u [<- _]].
  destruct (Qltb u 0) eqn:E.
  - apply Qle_refl.
  - apply Qltb_false in E; exact E.
Qed.

Lemma clamp_neg_length img : length (clamp_neg img) = length img.
Proof. apply length_map. Qed.

Lemma insert_sorted_nonneg v l : 0 <= v -> nonneg l -> nonneg (insert_sorted v l).
Proof.
  intros Hv Hl; induction Hl as [|h t Hh Ht IH]; simpl.
  - repeat constructor; auto.
  - destruct (Qle_bool v h); repeat constructor; auto.
Qed.

Lemma np_sort_nonneg l : nonneg l -> nonneg (np_sort l).
Proof.
  induction 1; simpl; [constructor | apply insert_sorted_nonneg; auto].
Qed.

Lemma floor_fraction (x : Q) :
  0 <= x - inject_Z (Qfloor x) /\ x - inject_Z (Qfloor x) <= 1.
Proof.
  pose proof (Qfloor_le x) as H1. pose proof (Qlt_floor x) as H2.
  rewrite inject_Z_plus in H2. change (inject_Z 1) with 1 in H2.
  split; lra.
Qed.

Lemma interpolate_nonneg (lo hi g : Q) :
  0 <= lo -> 0 <= hi -> 0 <= g -> g <= 1 -> 0 <= lo + (hi - lo) * g.
Proof.
  intros Hlo Hhi Hg0 Hg1.
  assert (H1 : 0 <= lo * (1 - g)) by (apply Qmult_le_0_compat; lra).
  assert (H2 : 0 <= hi * g) by (apply Qmult_le_0_compat; lra).
  lra.
Qed.

Lemma np_percentile_nonneg img q perc :
  nonneg img -> np_percentile img q = inr perc -> 0 <= perc.
Proof.
  intros Himg H. destruct img as [|a img]; [discriminate|].
  unfold np_percentile in H. inversion H; subst perc; clear H.
  set (s := np_sort (a :: img)).
  set (idx := q / 100 * _).
  assert (Hs : nonneg s) by (apply np_sort_nonneg; auto).
  pose proof (Forall_nth_default (Qle 0) s 0 (Z.to_nat (Qfloor idx)) (Qle_refl 0) Hs) as Hlo.
  pose proof (Forall_nth_default (Qle 0) s 0
                (Nat.min (S (Z.to_nat (Qfloor idx))) (length (a :: img) - 1))
                (Qle_refl 0) Hs) as Hhi.
  destruct (floor_fraction idx) as [Hg0 Hg1].
  apply interpolate_nonneg; auto.
Qed.

Lemma clamp_above_nonneg perc img : 0 <= perc -> nonneg img -> nonneg (clamp_above perc img).
Proof.
  intros Hp Himg. unfold nonneg, clamp_above. apply Forall_forall. intros v Hv.
  apply in_map_iff in Hv. destruct Hv as [u [<- Hu]].
  destruct (Qltb perc u); auto.
  unfold nonneg in Himg. rewrite Forall_forall in Himg. auto.
Qed.

Lemma clean_image_nonneg img cleaned : clean_image img = inr cleaned -> nonneg cleaned.
Proof.
  unfold clean_image. intros H.
  destruct (np_percentile (clamp_neg img) 99) as [e|perc] eqn:E; simpl in H; [discriminate|].
  inversion H; subst. apply clamp_above_nonneg.
  - eapply np_percentile_nonneg; [apply clamp_neg_nonneg | exact E].
  - apply clamp_neg_nonneg.
Qed.

Lemma clean_image_length img cleaned :
  clean_image img = inr cleaned -> length cleaned = length img.
Proof.
  unfold clean_image. intros H.
  destruct (np_percentile (clamp_neg img) 99) as [e|perc] eqn:E; simpl in H; [discriminate|].
  inversion H; subst. unfold clamp_above. rewrite length_map. apply clamp_neg_length.
Qed.

(** ** Matrices of non-negative entries *)

Lemma repeat_nonneg n : nonneg (repeat 0 n).
Proof.
  unfold nonneg. apply Forall_forall. intros v Hv.
  apply repeat_spec in Hv; subst. apply Qle_refl.
Qed.

Lemma vadd_nonneg u v : nonneg u -> nonneg v -> nonneg (vadd u v).
Proof.
  unfold nonneg, vadd. intros Hu; revert v.
  induction Hu as [|a u Ha Hu IH]; intros v Hv; simpl; [constructor|].
  destruct Hv as [|b v Hb Hv]; constructor; auto.
  lra.
Qed.

Lemma vscale_nonneg c v : 0 <= c -> nonneg v -> nonneg (vscale c v).
Proof.
  unfold nonneg, vscale. intros Hc Hv.
  induction Hv; simpl; constructor; auto.
  apply Qmult_le_0_compat; auto.
Qed.

Lemma mat_vec_nonneg npix A h :
  nonneg_matrix A -> nonneg h -> nonneg (mat_vec npix A h).
Proof.
  intros HA; revert h. induction HA as [|a A Ha HA IH]; intros h Hh; simpl.
  - apply repeat_nonneg.
  - destruct Hh as [|c h Hc Hh]; [apply repeat_nonneg|].
    apply vadd_nonneg; [apply vscale_nonneg; auto | apply IH; auto].
Qed.

Lemma mat_vec_length npix A h :
  Forall (fun c => length c = npix) A -> length (mat_vec npix A h) = npix.
Proof.
  intros HA; revert h. induction HA as [|a A Ha HA IH]; intros h; simpl.
  - apply repeat_length.
  - destruct h as [|c h]; [apply repeat_length|].
    unfold vadd, vscale. rewrite map2_length, length_map, IH, Ha. apply Nat.min_id.
Qed.

Lemma select_cols_Forall (P : vec -> Prop) x cols :
  P [] -> Forall P x -> Forall P (select_cols x cols).
Proof.
  intros Hnil Hx. unfold select_cols. apply Forall_forall. intros c Hc.
  apply in_map_iff in Hc. destruct Hc as [j [<- _]].
  apply Forall_nth_default; auto.
Qed.

Lemma select_cols_nonneg x cols : nonneg_matrix x -> nonneg_matrix (select_cols x cols).
Proof. apply select_cols_Forall. constructor. Qed.

(** ** The batched projection *)

Lemma fold_left_invariant {A B : Type} (P : A -> Prop) (f : A -> B -> A) l a :
  (forall a b, P a -> In b l -> P (f a b)) -> P a -> P (fold_left f l a).
Proof.
  revert a; induction l as [|b l IH]; simpl; intros a Hf Ha.
  - exact Ha.
  - apply IH.
    + intros a' b' Ha' Hb'. apply Hf; auto.
    + apply Hf; auto.
Qed.

Lemma In_combine_snd {A B : Type} (l : list A) (m : list B) a b :
  In (a, b) (combine l m) -> In b m.
Proof. apply in_combine_r. Qed.

Lemma assign_cols_Forall (P : vec -> Prop) result chunk sol :
  Forall P sol -> Forall P result -> Forall P (assign_cols result chunk sol).
Proof.
  intros Hsol Hres. unfold assign_cols.
  apply fold_left_invariant; auto.
  intros r [j c] Hr Hin; simpl. apply set_nth_Forall; auto.
  rewrite Forall_forall in Hsol. apply Hsol. eapply In_combine_snd; eauto.
Qed.

Lemma assign_cols_length result chunk sol :
  length (assign_cols result chunk sol) = length result.
Proof.
  unfold assign_cols.
  apply (fold_left_invariant (fun r => length r = length result)); auto.
  intros r jc Hr _. rewrite set_nth_length; auto.
Qed.

Lemma nnls_frob_nonneg ext x anchors :
  solver_nonneg ext -> nonneg_matrix (nnls_frob ext x anchors).
Proof.
  intros Hs. unfold nnls_frob.
  apply (fold_left_invariant nonneg_matrix).
  - intros r chunk Hr _. apply assign_cols_Forall; auto. apply Hs.
  - apply Forall_forall. intros c Hc. apply repeat_spec in Hc; subst.
    apply repeat_nonneg.
Qed.

Lemma nnls_frob_length ext x anchors : length (nnls_frob ext x anchors) = length x.
Proof.
  unfold nnls_frob.
  apply (fold_left_invariant (fun r => length r = length x)).
  - intros r chunk Hr _. rewrite assign_cols_length; auto.
  - apply repeat_length.
Qed.

Lemma partition_go_concat {A : Type} n (l acc : list A) :
  concat (partition_go n acc l) = rev acc ++ l.
Proof.
  revert acc; induction l as [|a l IH]; intros acc.
  - simpl. destruct acc; simpl; rewrite ?app_nil_r; auto.
  - cbn [partition_go].
    destruct (Nat.eqb (length (a :: acc)) n).
    + cbn [concat]. rewrite IH. simpl. rewrite <- !app_assoc. reflexivity.
    + rewrite IH. simpl. rewrite <- app_assoc. reflexivity.
Qed.

Lemma partition_all_concat {A : Type} n (l : list A) : concat (partition_all n l) = l.
Proof. unfold partition_all. apply partition_go_concat. Qed.

(** Every batch holds at most [n] items, and only the last one may hold fewer. *)
Lemma partition_go_sizes {A : Type} n (l acc : list A) :
  (length acc < n)%nat ->
  Forall (fun c => (0 < length c <= n)%nat) (partition_go n acc l).
Proof.
  revert acc; induction l as [|a l IH]; intros acc Hacc.
  - simpl. destruct acc as [|b acc]; constructor; auto.
    rewrite length_rev. simpl in *. lia.
  - cbn [partition_go].
    destruct (Nat.eqb (length (a :: acc)) n) eqn:E.
    + apply Nat.eqb_eq in E. constructor.
      * rewrite length_rev. simpl in *. lia.
      * apply IH. simpl. lia.
    + apply Nat.eqb_neq in E. apply IH. simpl in *. lia.
Qed.

Lemma fold_left_concat {A B : Type} (f : A -> B -> A) (ll : list (list B)) a :
  fold_left (fun r chunk => fold_left f chunk r) ll a = fold_left f (concat ll) a.
Proof.
  revert a; induction ll as [|c ll IH]; simpl; intros a; auto.
  rewrite fold_left_app. apply IH.
Qed.

Lemma assign_cols_map (g : nat -> vec) chunk result :
  assign_cols result chunk (map g chunk)
  = fold_left (fun r j => set_nth j (g j) r) chunk result.
Proof.
  unfold assign_cols. revert result.
  induction chunk as [|j chunk IH]; simpl; intros result; auto.
Qed.

Lemma nth_fold_set (g : nat -> vec) l r j d :
  (j < length r)%nat ->
  nth j (fold_left (fun r j => set_nth j (g j) r) l r) d
  = if mem j l then g j else nth j r d.
Proof.
  revert r; induction l as [|i l IH]; simpl; intros r Hj; auto.
  rewrite IH by (rewrite set_nth_length; auto).
  destruct (mem j l) eqn:El.
  - rewrite orb_true_r. reflexivity.
  - rewrite orb_false_r. destruct (Nat.eqb j i) eqn:E.
    + apply Nat.eqb_eq in E; subst. apply nth_set_nth_same; auto.
    + apply Nat.eqb_neq in E. apply nth_set_nth_other; auto.
Qed.

Lemma mem_In j l : mem j l = true <-> In j l.
Proof.
  unfold mem. rewrite existsb_exists. split.
  - intros [i [Hi E]]. apply Nat.eqb_eq in E; subst; auto.
  - intros H. exists j. split; auto. apply Nat.eqb_refl.
Qed.

Lemma select_all_cols (x : matrix) : select_cols x (seq 0 (length x)) = x.
Proof.
  unfold select_cols. apply nth_ext with (d := []) (d' := []).
  - rewrite length_map, length_seq. reflexivity.
  - intros k Hk. rewrite length_map, length_seq in Hk.
    rewrite (nth_indep _ [] (nth 0 x [])) by (rewrite length_map, length_seq; auto).
    rewrite (map_nth (fun j => nth j x []) (seq 0 (length x)) 0%nat k) at 1.
    rewrite seq_nth by auto. reflexivity.
Qed.

Lemma fold_left_eq {A B : Type} (f g : A -> B -> A) l a :
  (forall a b, f a b = g a b) -> fold_left f l a = fold_left g l a.
Proof.
  intros E; revert a; induction l as [|b l IH]; simpl; intros a; auto.
  rewrite E. apply IH.
Qed.

Lemma mem_seq j n : (j < n)%nat -> mem j (seq 0 n) = true.
Proof.
  intros Hj. apply mem_In. apply in_seq. lia.
Qed.

Lemma nnls_frob_columnwise ext (solve1 : matrix -> vec -> vec) x anchors :
  (forall A B, nnlsm_blockpivot ext A B = map (solve1 A) B) ->
  nnls_frob ext x anchors = map (solve1 anchors) x.
Proof.
  intros Hs. unfold nnls_frob.
  set (g := fun j => solve1 anchors (nth j x [])).
  rewrite (fold_left_eq _ (fun r chunk => fold_left (fun r j => set_nth j (g j) r) chunk r)).
  2:{ intros r chunk. rewrite Hs. unfold select_cols. rewrite map_map.
      apply (assign_cols_map g). }
  rewrite fold_left_concat, partition_all_concat.
  apply nth_ext with (d := []) (d' := solve1 anchors []).
  - rewrite length_map.
    apply (fold_left_invariant (fun r => length r = length x)).
    + intros r j Hr _. rewrite set_nth_length; auto.
    + apply repeat_length.
  - intros j Hj.
    assert (Hlen : length (fold_left (fun r j => set_nth j (g j) r) (seq 0 (length x))
                             (repeat (repeat 0 (length anchors)) (length x))) = length x).
    { apply (fold_left_invariant (fun r => length r = length x)).
      - intros r i Hr _. rewrite set_nth_length; auto.
      - apply repeat_length. }
    rewrite Hlen in Hj.
    rewrite nth_fold_set by (rewrite repeat_length; auto).
    rewrite mem_seq by auto.
    rewrite (map_nth (solve1 anchors) x [] j). reflexivity.
Qed.

(** ** [np.argmax] and the exclusion of selected columns *)

Lemma fgt_trans_le (a b c : fval) : fgt a b = false -> fgt c b = true -> fgt a c = false.
Proof.
  destruct a as [| |x|], b as [| |y|], c as [| |z|]; simpl; intros H1 H2;
    try discriminate; try reflexivity.
  apply Qltb_false in H1. apply Qltb_true in H2. apply Qltb_false. lra.
Qed.

Lemma fgt_le_trans (a b c : fval) : fgt a b = false -> fgt b c = false -> fgt a c = false.
Proof.
  destruct a as [| |x|], b as [| |y|], c as [| |z|]; simpl; intros H1 H2;
    try discriminate; try reflexivity.
  apply Qltb_false in H1. apply Qltb_false in H2. apply Qltb_false. lra.
Qed.

Lemma fgt_irrefl (a : fval) : fgt a a = false.
Proof.
  destruct a as [| |x|]; simpl; auto. apply Qltb_false. apply Qle_refl.
Qed.

Lemma argmax_from_spec l : forall best bv i d,
  (best < i)%nat ->
  let b := argmax_from best bv i l in
  (b = best \/ (i <= b < i + length l)%nat)
  /\ (let m := if Nat.eqb b best then bv else nth (b - i) l d in
      fgt bv m = false /\ forall k, (k < length l)%nat -> fgt (nth k l d) m = false).
Proof.
  induction l as [|v t IH]; intros best bv i d Hb; cbn zeta.
  - simpl. rewrite Nat.eqb_refl. split; [auto|]. split; [apply fgt_irrefl | intros; lia].
  - cbn [argmax_from]. destruct (fgt v bv) eqn:E.
    + specialize (IH i v (S i) d ltac:(lia)). cbn zeta in IH.
      set (b := argmax_from i v (S i) t) in *.
      destruct IH as [Hrange [Hv Hall]].
      assert (Hbb : Nat.eqb b best = false) by (apply Nat.eqb_neq; lia).
      rewrite Hbb. split; [right; simpl; lia|].
      assert (Hm : (if Nat.eqb b i then v else nth (b - S i) t d) = nth (b - i) (v :: t) d).
      { destruct (Nat.eqb b i) eqn:Ebi.
        - apply Nat.eqb_eq in Ebi. rewrite Ebi, Nat.sub_diag. reflexivity.
        - apply Nat.eqb_neq in Ebi.
          replace (b - i)%nat with (S (b - S i)) by lia. reflexivity. }
      rewrite Hm in Hv, Hall. split.
      * destruct (fgt bv (nth (b - i) (v :: t) d)) eqn:E2; auto.
        assert (fgt v bv = false) by (eapply fgt_trans_le; eauto). congruence.
      * intros [|k] Hk; simpl; [exact Hv | apply Hall; simpl in Hk; lia].
    + specialize (IH best bv (S i) d ltac:(lia)). cbn zeta in IH.
      set (b := argmax_from best bv (S i) t) in *.
      destruct IH as [Hrange [Hv Hall]].
      split; [destruct Hrange; [left; auto | right; simpl; lia]|].
      assert (Hm : (if Nat.eqb b best then bv else nth (b - S i) t d)
                   = (if Nat.eqb b best then bv else nth (b - i) (v :: t) d)).
      { destruct (Nat.eqb b best) eqn:Ebb; auto.
        apply Nat.eqb_neq in Ebb.
        replace (b - i)%nat with (S (b - S i)) by lia. reflexivity. }
      rewrite Hm in Hv, Hall. split; auto.
      intros [|k] Hk; simpl; [| apply Hall; simpl in Hk; lia].
      eapply fgt_le_trans; eauto.
Qed.

Lemma np_argmax_spec l b d :
  np_argmax l = inr b ->
  (b < length l)%nat /\ forall k, (k < length l)%nat -> fgt (nth k l d) (nth b l d) = false.
Proof.
  destruct l as [|v t]; simpl; [discriminate|]. intros H; inversion H; clear H.
  destruct (argmax_from_spec t 0%nat v 1%nat d ltac:(lia)) as [Hrange [Hv Hall]].
  set (b0 := argmax_from 0 v 1 t) in *.
  assert (Hm : (if Nat.eqb b0 0 then v else nth (b0 - 1) t d) = nth b0 (v :: t) d).
  { destruct b0 as [|b0]; simpl; auto. rewrite Nat.sub_0_r. reflexivity. }
  rewrite Hm in Hv, Hall. split; [lia|].
  intros [|k] Hk; simpl; [exact Hv | apply Hall; lia].
Qed.

Lemma np_argmax_nonempty l : l <> [] -> exists b, np_argmax l = inr b.
Proof.
  destruct l; [congruence | intros _; simpl; eauto].
Qed.

Lemma mask_selected_length cols scores :
  length (mask_selected cols scores) = length scores.
Proof.
  unfold mask_selected.
  apply (fold_left_invariant (fun s => length s = length scores)); auto.
  intros s j Hs _. rewrite set_nth_length; auto.
Qed.

Lemma mask_selected_nth cols : forall scores j d,
  (j < length scores)%nat ->
  nth j (mask_selected cols scores) d = if mem j cols then Fin (-1) else nth j scores d.
Proof.
  unfold mask_selected.
  induction cols as [|i cols IH]; simpl; intros scores j d Hj; auto.
  rewrite IH by (rewrite set_nth_length; auto).
  destruct (mem j cols) eqn:El.
  - rewrite orb_true_r. reflexivity.
  - rewrite orb_false_r. destruct (Nat.eqb j i) eqn:E.
    + apply Nat.eqb_eq in E; subst. apply nth_set_nth_same; auto.
    + apply Nat.eqb_neq in E. apply nth_set_nth_other; auto.
Qed.

(** ** The selection loop *)

Lemma xray_step_inv ext npix x st st' :
  xray_step ext npix x st = inr st' ->
  exists b,
    np_argmax (mask_selected (cols st)
                 (raw_scores (random_random ext (length (cols st)) npix) (R st) x)) = inr b
    /\ mem b (cols st) = false
    /\ cols st' = cols st ++ [b].
Proof.
  unfold xray_step. intros H.
  destruct (np_argmax _) as [e|b] eqn:Ea; simpl in H; [discriminate|].
  destruct (mem b (cols st)) eqn:Em; [discriminate|].
  inversion H; subst; simpl. exists b; auto.
Qed.

Lemma xray_step_error ext npix x st e :
  xray_step ext npix x st = inl e -> e = ValueError \/ e = AssertionError.
Proof.
  unfold xray_step. intros H.
  destruct (np_argmax _) as [e'|b] eqn:Ea; simpl in H.
  - left. destruct (mask_selected _ _); simpl in Ea; [|discriminate].
    inversion Ea; subst. inversion H; auto.
  - destruct (mem b (cols st)); [|discriminate]. inversion H; auto.
Qed.

Lemma raw_scores_length p R0 x : (length (raw_scores p R0 x) <= length x)%nat.
Proof.
  unfold raw_scores. rewrite map2_length. lia.
Qed.

Lemma xray_step_fresh ext npix x st st' :
  xray_step ext npix x st = inr st' ->
  exists b, cols st' = cols st ++ [b] /\ ~ In b (cols st) /\ (b < length x)%nat.
Proof.
  intros H. apply xray_step_inv in H. destruct H as [b [Ha [Hm Hc]]].
  exists b. split; auto. split.
  - rewrite <- mem_In. congruence.
  - apply (np_argmax_spec _ _ NaN) in Ha. destruct Ha as [Hb _].
    rewrite mask_selected_length in Hb.
    pose proof (raw_scores_length (random_random ext (length (cols st)) npix) (R st) x). lia.
Qed.

(** When some column that is not selected yet scores above [-1], the pick
    is a new column and the assertion holds. *)
Lemma xray_step_succeeds ext npix x st j :
  let scores := raw_scores (random_random ext (length (cols st)) npix) (R st) x in
  (j < length scores)%nat ->
  mem j (cols st) = false ->
  fgt (nth j scores NaN) (Fin (-1)) = true ->
  exists st', xray_step ext npix x st = inr st'.
Proof.
  intros scores Hj Hm Hs. unfold xray_step. fold scores.
  destruct (np_argmax (mask_selected (cols st) scores)) as [e|b] eqn:Ea.
  - destruct (mask_selected (cols st) scores) eqn:El; [|discriminate].
    pose proof (mask_selected_length (cols st) scores) as Hl.
    rewrite El in Hl. simpl in Hl. lia.
  - simpl. destruct (mem b (cols st)) eqn:Eb; [|eauto].
    apply (np_argmax_spec _ _ NaN) in Ea. destruct Ea as [Hb Hmax].
    rewrite mask_selected_length in Hb, Hmax.
    specialize (Hmax j Hj).
    rewrite !mask_selected_nth in Hmax by auto.
    rewrite Hm, Eb in Hmax. congruence.
Qed.

Lemma xray_loop_spec ext npix x r : forall fuel iters st n st',
  xray_loop ext npix x r fuel iters st = Some (inr (n, st')) ->
  NoDup (cols st) ->
  Forall (fun j => (j < length x)%nat) (cols st) ->
  NoDup (cols st')
  /\ Forall (fun j => (j < length x)%nat) (cols st')
  /\ Z.of_nat (length (cols st')) = Z.max r (Z.of_nat (length (cols st)))
  /\ (n = iters + (length (cols st') - length (cols st)))%nat.
Proof.
  induction fuel as [|fuel IH]; intros iters st n st' H Hnd Hrange; cbn [xray_loop] in H.
  - destruct (Z.of_nat (length (cols st)) <? r)%Z eqn:E; [discriminate|].
    inversion H; subst. apply Z.ltb_ge in E.
    repeat split; auto; lia.
  - destruct (Z.of_nat (length (cols st)) <? r)%Z eqn:E.
    + destruct (xray_step ext npix x st) as [e|st1] eqn:Es; [discriminate|].
      apply xray_step_fresh in Es. destruct Es as [b [Hc [Hb Hlt]]].
      apply Z.ltb_lt in E.
      apply IH in H.
      * destruct H as [H1 [H2 [H3 H4]]]. rewrite Hc in H3, H4.
        rewrite length_app in H3, H4. simpl in H3, H4.
        repeat split; auto; lia.
      * rewrite Hc. apply NoDup_app; [auto | repeat constructor; simpl; tauto |].
        intros a Ha [<-|[]]. auto.
      * rewrite Hc. apply Forall_app; auto.
    + inversion H; subst. apply Z.ltb_ge in E.
      repeat split; auto; lia.
Qed.

Lemma xray_loop_terminates ext npix x r : forall fuel iters st,
  (r - Z.of_nat (length (cols st)) <= Z.of_nat fuel)%Z ->
  exists res, xray_loop ext npix x r fuel iters st = Some res.
Proof.
  induction fuel as [|fuel IH]; intros iters st Hf; cbn [xray_loop].
  - destruct (Z.of_nat (length (cols st)) <? r)%Z eqn:E; [|eauto].
    apply Z.ltb_lt in E. lia.
  - destruct (Z.of_nat (length (cols st)) <? r)%Z eqn:E; [|eauto].
    destruct (xray_step ext npix x st) as [e|st1] eqn:Es; [eauto|].
    apply xray_step_fresh in Es. destruct Es as [b [Hc _]].
    apply IH. rewrite Hc, length_app. simpl. lia.
Qed.

Lemma xray_loop_error ext npix x r : forall fuel iters st e,
  xray_loop ext npix x r fuel iters st = Some (inl e) ->
  e = ValueError \/ e = AssertionError.
Proof.
  induction fuel as [|fuel IH]; intros iters st e H; cbn [xray_loop] in H.
  - destruct (Z.of_nat (length (cols st)) <? r)%Z; discriminate.
  - destruct (Z.of_nat (length (cols st)) <? r)%Z; [|discriminate].
    destruct (xray_step ext npix x st) as [e'|st1] eqn:Es.
    + inversion H; subst. eapply xray_step_error; eauto.
    + eapply IH; eauto.
Qed.

(** With fewer columns than the requested rank the loop cannot finish. *)
Lemma xray_needs_columns ext npix x r n st :
  xray ext npix x r = Some (inr (n, st)) -> (r <= Z.of_nat (length x))%Z.
Proof.
  unfold xray. intros H.
  apply xray_loop_spec in H; [| constructor | constructor].
  destruct H as [Hnd [Hrange [Hlen _]]]. simpl in Hlen.
  assert (Hle : (length (cols st) <= length (seq 0 (length x)))%nat).
  { apply NoDup_incl_length; auto.
    intros j Hj. rewrite Forall_forall in Hrange. apply in_seq.
    specialize (Hrange j Hj). lia. }
  rewrite length_seq in Hle. lia.
Qed.

(** ** The chunked array *)

Lemma mapM_app {A B : Type} (f : A -> result B) l1 l2 :
  mapM f (l1 ++ l2) = (b1 <- mapM f l1 ;; b2 <- mapM f l2 ;; inr (b1 ++ b2)).
Proof.
  induction l1 as [|a l1 IH]; simpl.
  - destruct (mapM f l2); reflexivity.
  - destruct (f a) as [e|b]; simpl; auto. rewrite IH.
    destruct (mapM f l1) as [e|b1]; simpl; auto.
    destruct (mapM f l2) as [e|b2]; simpl; auto.
Qed.

Lemma mapM_concat {A B : Type} (f : A -> result B) ll :
  (cs <- mapM (mapM f) ll ;; inr (concat cs)) = mapM f (concat ll).
Proof.
  induction ll as [|l ll IH]; simpl; auto.
  rewrite mapM_app. destruct (mapM f l) as [e|b1]; simpl; auto.
  rewrite <- IH. destruct (mapM (mapM f) ll) as [e|cs]; simpl; auto.
Qed.

(** Chunking the axis does not change the array that is computed. *)
Lemma compute_arr_eq imzb mz_axis : compute_arr imzb mz_axis = get_mz_images imzb mz_axis.
Proof.
  unfold compute_arr, get_mz_images at 2.
  rewrite <- (partition_all_concat K mz_axis) at 2.
  rewrite <- mapM_concat. reflexivity.
Qed.

Lemma compute_arr_nonneg imzb mz_axis arr :
  compute_arr imzb mz_axis = inr arr -> nonneg_matrix arr.
Proof.
  rewrite compute_arr_eq. unfold get_mz_images. apply mapM_Forall.
  intros bin img. apply clean_image_nonneg.
Qed.

Lemma compute_arr_shape imzb mz_axis arr :
  reader_shape imzb ->
  compute_arr imzb mz_axis = inr arr ->
  Forall (fun c => length c = (height imzb * width imzb)%nat) arr.
Proof.
  intros Hs. rewrite compute_arr_eq. unfold get_mz_images. apply mapM_Forall.
  intros bin img H. apply clean_image_length in H. rewrite H. apply Hs.
Qed.

(** ** The noise pass *)

Lemma noise_step_inv ext imzb W H_full acc i bin acc1 :
  noise_step ext imzb W H_full acc i bin = inr acc1 ->
  (0 < height imzb * width imzb)%nat
  /\ prob acc1 = prob acc ++ [fst (fst (bin_record ext imzb W H_full (i, bin)))]
  /\ sqrt_median acc1 = sqrt_median acc ++ [snd (fst (bin_record ext imzb W H_full (i, bin)))]
  /\ sqrt_std acc1 = sqrt_std acc ++ [snd (bin_record ext imzb W H_full (i, bin))]
  /\ min_intensities acc1 = update_min (min_intensities acc) (orig_of imzb bin).
Proof.
  unfold noise_step, bin_record, orig_of, approx_of. cbn [fst snd]. intros H.
  destruct (nth_error H_full i) as [h|] eqn:En; [|discriminate].
  pose proof (nth_error_nth H_full i [] En) as Hn.
  unfold matrix, vec in *. rewrite Hn.
  destruct (negb (Nat.eqb (length h) (length W))); [discriminate|].
  destruct (negb (forallb _ W)); [discriminate|].
  destruct (negb (Nat.eqb (length (clean_orig _)) _)); [discriminate|].
  destruct (Nat.eqb (width imzb * height imzb) 0) eqn:E; [discriminate|].
  apply Nat.eqb_neq in E.
  split; [lia|].
  destruct (Qltb 0 _); inversion H; subst; simpl; auto.
Qed.

(** What a bin needs for line 134 to go through. *)
Lemma noise_step_shapes ext imzb W H_full acc i bin acc1 :
  noise_step ext imzb W H_full acc i bin = inr acc1 ->
  exists h,
    nth_error H_full i = Some h
    /\ length h = length W
    /\ Forall (fun c => length c = (height imzb * width imzb)%nat) W
    /\ length (orig_of imzb bin) = (height imzb * width imzb)%nat.
Proof.
  unfold noise_step, orig_of. intros H.
  destruct (nth_error H_full i) as [h|] eqn:En; [|discriminate].
  destruct (Nat.eqb (length h) (length W)) eqn:E1; cbn [negb] in H; [|discriminate].
  match type of H with
  | context [forallb ?f W] => destruct (forallb f W) eqn:E2
  end; cbn [negb] in H; [|discriminate].
  match type of H with
  | context [negb (Nat.eqb ?a ?b)] => destruct (Nat.eqb a b) eqn:E3
  end; cbn [negb] in H; [|discriminate].
  exists h. split; auto. split; [apply Nat.eqb_eq; auto|]. split.
  - apply Forall_forall. intros c Hc.
    rewrite forallb_forall in E2. apply Nat.eqb_eq. auto.
  - apply Nat.eqb_eq. auto.
Qed.

Lemma noise_step_total ext imzb W H_full acc i bin :
  (0 < height imzb * width imzb)%nat ->
  reader_shape imzb ->
  Forall (fun c => length c = (height imzb * width imzb)%nat) W ->
  (exists h, nth_error H_full i = Some h /\ length h = length W) ->
  exists acc1, noise_step ext imzb W H_full acc i bin = inr acc1.
Proof.
  intros Hpos Hshape HW [h [En Hh]]. unfold noise_step.
  unfold matrix, vec in *. rewrite En.
  assert (E1 : Nat.eqb (length h) (length W) = true) by (apply Nat.eqb_eq; auto).
  assert (E2 : forallb (fun c => Nat.eqb (length c) (height imzb * width imzb)) W = true).
  { apply forallb_forall. intros c Hc. apply Nat.eqb_eq.
    rewrite Forall_forall in HW. auto. }
  assert (E3 : Nat.eqb (length (clean_orig (get_mz_image imzb (fst bin) (snd bin))))
                 (height imzb * width imzb) = true).
  { apply Nat.eqb_eq. unfold clean_orig. rewrite clamp_neg_length. apply Hshape. }
  rewrite E1, E2, E3. cbn [negb].
  destruct (Nat.eqb (width imzb * height imzb) 0) eqn:E.
  - apply Nat.eqb_eq in E. lia.
  - destruct (Qltb 0 _); eauto.
Qed.

Lemma noise_loop_inv ext imzb W H_full : forall mz_axis acc i acc',
  noise_loop ext imzb W H_full acc i mz_axis = inr acc' ->
  let records := map (bin_record ext imzb W H_full) (combine (seq i (length mz_axis)) mz_axis) in
  prob acc' = prob acc ++ map (fun rec => fst (fst rec)) records
  /\ sqrt_median acc' = sqrt_median acc ++ map (fun rec => snd (fst rec)) records
  /\ sqrt_std acc' = sqrt_std acc ++ map (fun rec => snd rec) records
  /\ min_intensities acc' = fold_left update_min (map (orig_of imzb) mz_axis) (min_intensities acc)
  /\ (mz_axis <> [] -> (0 < height imzb * width imzb)%nat).
Proof.
  induction mz_axis as [|bin rest IH]; intros acc i acc' H; cbn zeta.
  - simpl in H. inversion H; subst. simpl. rewrite !app_nil_r. repeat split; auto.
    congruence.
  - cbn [noise_loop] in H.
    destruct (noise_step ext imzb W H_full acc i bin) as [e|acc1] eqn:Es; simpl in H;
      [discriminate|].
    apply noise_step_inv in Es. destruct Es as [Hpos [Hp [Hm [Hs Hmin]]]].
    apply IH in H. cbn zeta in H. destruct H as [Hp' [Hm' [Hs' [Hmin' _]]]].
    cbn [length seq combine map fold_left].
    rewrite Hp', Hm', Hs', Hmin', Hp, Hm, Hs, Hmin, <- !app_assoc.
    repeat split; auto.
Qed.

Lemma noise_loop_total ext imzb W H_full : forall mz_axis acc i,
  (0 < height imzb * width imzb)%nat ->
  reader_shape imzb ->
  Forall (fun c => length c = (height imzb * width imzb)%nat) W ->
  (forall k, (k < length mz_axis)%nat ->
     exists h, nth_error H_full (i + k) = Some h /\ length h = length W) ->
  exists acc', noise_loop ext imzb W H_full acc i mz_axis = inr acc'.
Proof.
  induction mz_axis as [|bin rest IH]; intros acc i Hpos Hshape HW HH;
    cbn [noise_loop]; eauto.
  destruct (noise_step_total ext imzb W H_full acc i bin Hpos Hshape HW) as [acc1 E].
  { specialize (HH 0%nat ltac:(simpl; lia)). rewrite Nat.add_0_r in HH. exact HH. }
  rewrite E. simpl. apply IH; auto.
  intros k Hk. specialize (HH (S k) ltac:(simpl; lia)).
  replace (S i + k)%nat with (i + S k)%nat by lia. exact HH.
Qed.

Lemma noise_pass_total ext imzb W H_full mz_axis :
  (0 < height imzb * width imzb)%nat ->
  reader_shape imzb ->
  factors_shape imzb W H_full mz_axis ->
  exists acc, noise_pass ext imzb W H_full mz_axis = inr acc.
Proof.
  intros Hpos Hshape [HW [Hlen HH]]. unfold noise_pass.
  apply noise_loop_total; auto.
  intros k Hk. simpl.
  destruct (nth_error H_full k) as [h|] eqn:En.
  - exists h. split; auto. rewrite Forall_forall in HH. apply HH.
    eapply nth_error_In; eauto.
  - apply nth_error_None in En. lia.
Qed.

Lemma nth_error_combine_seq {A : Type} (l : list A) : forall i k a,
  nth_error l k = Some a ->
  nth_error (combine (seq i (length l)) l) k = Some ((i + k)%nat, a).
Proof.
  induction l as [|b l IH]; intros i [|k] a H; simpl in *; try discriminate.
  - inversion H; subst. rewrite Nat.add_0_r. reflexivity.
  - rewrite (IH (S i) k a H). f_equal. f_equal. lia.
Qed.

Lemma nth_records {A : Type} (f : Q * Q * Q -> A) ext imzb W H_full mz_axis k bin d :
  nth_error mz_axis k = Some bin ->
  nth k (map f (map (bin_record ext imzb W H_full)
                  (combine (seq 0 (length mz_axis)) mz_axis))) d
  = f (bin_record ext imzb W H_full (k, bin)).
Proof.
  intros H. apply nth_error_combine_seq with (i := 0%nat) in H.
  apply nth_error_nth. rewrite map_map.
  rewrite nth_error_map, H. reflexivity.
Qed.

Lemma update_min_nth mm img k d :
  (k < length mm)%nat -> (k < length img)%nat ->
  nth k (update_min mm img) d
  = if Qltb 0 (nth k img 0) then fmin (nth k mm d) (Fin (nth k img 0)) else nth k mm d.
Proof.
  intros H1 H2. unfold update_min.
  rewrite (nth_map2 _ mm img k d 0 d); auto.
Qed.

Lemma fold_update_min_nth n k d : forall imgs mm,
  Forall (fun img => length img = n) imgs -> length mm = n -> (k < n)%nat ->
  nth k (fold_left update_min imgs mm) d
  = pixel_min (nth k mm d) (map (fun img => nth k img 0) imgs).
Proof.
  unfold pixel_min.
  induction imgs as [|img imgs IH]; intros mm Himgs Hmm Hk; simpl; auto.
  inversion Himgs as [|? ? Hi Hr]; subst.
  rewrite IH; auto.
  - rewrite update_min_nth by lia. reflexivity.
  - unfold update_min. rewrite map2_length. lia.
Qed.

Lemma pixel_min_unchanged cur readings :
  Forall (fun o => o <= 0) readings -> pixel_min cur readings = cur.
Proof.
  unfold pixel_min. intros H. induction H as [|o os Ho Hos IH]; simpl; auto.
  destruct (Qltb 0 o) eqn:E; auto.
  apply Qltb_true in E. lra.
Qed.

Lemma pixel_min_from_finite : forall readings c,
  0 < c ->
  exists m, pixel_min (Fin c) readings = Fin m
    /\ 0 < m /\ m <= c
    /\ (m = c \/ In m readings)
    /\ forall o, In o readings -> 0 < o -> m <= o.
Proof.
  unfold pixel_min.
  induction readings as [|o os IH]; intros c Hc; simpl.
  - exists c. repeat split; auto; try lra. intros o [].
  - destruct (Qltb 0 o) eqn:E.
    + apply Qltb_true in E. cbn [fmin].
      destruct (Qle_bool c o) eqn:Ec.
      * apply Qle_bool_iff in Ec.
        destruct (IH c Hc) as [m [Hm [Hpos [Hle [Hin Hall]]]]].
        exists m. repeat split; auto.
        -- destruct Hin; auto.
        -- intros o' [<-|Ho'] Hp; [lra | auto].
      * assert (Hoc : o <= c).
        { apply Qlt_le_weak. apply Qltb_true. unfold Qltb. rewrite Ec. reflexivity. }
        destruct (IH o E) as [m [Hm [Hpos [Hle [Hin Hall]]]]].
        exists m. repeat split; auto; try lra.
        -- right. destruct Hin as [->|Hin]; auto.
        -- intros o' [<-|Ho'] Hp; [lra | auto].
    + apply Qltb_false in E.
      destruct (IH c Hc) as [m [Hm [Hpos [Hle [Hin Hall]]]]].
      exists m. repeat split; auto.
      * destruct Hin; auto.
      * intros o' [<-|Ho'] Hp; [lra | auto].
Qed.

Lemma pixel_min_from_infinity : forall readings,
  (exists o, In o readings /\ 0 < o) ->
  exists m, pixel_min PInf readings = Fin m
    /\ 0 < m /\ In m readings
    /\ forall o, In o readings -> 0 < o -> m <= o.
Proof.
  induction readings as [|o os IH]; intros [p [Hin Hp]]; [destruct Hin|].
  unfold pixel_min. simpl. destruct (Qltb 0 o) eqn:E.
  - apply Qltb_true in E.
    destruct (pixel_min_from_finite os o E) as [m [Hm [Hpos [Hle [Hor Hall]]]]].
    unfold pixel_min in Hm. exists m. repeat split; auto.
    + destruct Hor as [->|Hor]; auto.
    + intros o' [<-|Ho'] Hp'; auto.
  - apply Qltb_false in E.
    destruct Hin as [->|Hin]; [lra|].
    destruct (IH (ex_intro _ p (conj Hin Hp))) as [m [Hm [Hpos [Hi Hall]]]].
    unfold pixel_min in Hm. exists m. repeat split; auto.
    intros o' [<-|Ho'] Hp'; [lra | auto].
Qed.

(** ** Unfolding a run that saved an archive *)

Lemma pipeline_inv ext args a :
  pipeline ext args = Some (inr a) ->
  let imzb := ImzbReader ext (input args) in
  exists mz_axis arr bright n st acc,
    compute_arr imzb mz_axis = inr arr
    /\ xray ext (height imzb * width imzb) (select_cols arr bright) (rank args)
       = Some (inr (n, st))
    /\ noise_pass ext imzb (saved_W a) (saved_H a) mz_axis = inr acc
    /\ saved_W a = select_cols (select_cols arr bright) (cols st)
    /\ saved_H a = nnls_frob ext arr (saved_W a)
    /\ saved_mz_axis a = mz_axis
    /\ saved_noise_prob a = prob acc
    /\ saved_noise_sqrt_avg a = sqrt_median acc
    /\ saved_noise_sqrt_std a = sqrt_std acc
    /\ saved_min_intensities a = min_intensities acc.
Proof.
  unfold pipeline. cbn zeta. intros H.
  destruct (assert (Qltb 0 _)) as [e|[]]; simpl in H; [inversion H|].
  destruct (assert (Qltb 1 _)) as [e|[]]; simpl in H; [inversion H|].
  destruct (da_Array _) as [e|[]] eqn:Eda; simpl in H; [inversion H|].
  destruct (compute_arr _ _) as [e|arr] eqn:Earr; simpl in H; [inversion H|].
  destruct (xray _ _ _ _) as [[e|[n st]]|] eqn:Ex; [inversion H| |discriminate].
  destruct (noise_pass _ _ _ _ _) as [e|acc] eqn:En; simpl in H; [inversion H|].
  inversion H; subst; clear H. simpl.
  eexists _, arr, _, n, st, acc. repeat split; eauto.
Qed.

Lemma main_saved ext args t res path a :
  main ext args = Some (t, res) ->
  In (SaveArchive path a) t ->
  pipeline ext args = Some (inr a) /\ (10 <= rank args)%Z /\ path = output args /\ res = inr tt.
Proof.
  unfold main. intros H Hin.
  destruct (rank args <? 10)%Z eqn:Er.
  - inversion H; subst. destruct Hin as [Hin|[]]. discriminate.
  - apply Z.ltb_ge in Er.
    destruct (pipeline ext args) as [[e|a']|]; [| |discriminate].
    + inversion H; subst. destruct Hin as [Hin|[]]. discriminate.
    + inversion H; subst. destruct Hin as [Hin|[Hin|[]]]; [discriminate|].
      inversion Hin; subst. auto.
Qed.

Lemma positive_part_empty diff :
  Forall (fun d => d <= 0) diff -> positive_part diff = [].
Proof.
  unfold positive_part. induction 1 as [|d ds Hd Hds IH]; simpl; auto.
  destruct (Qltb 0 d) eqn:E; auto. apply Qltb_true in E. lra.
Qed.

Lemma vsub_nonpositive orig approx :
  Forall (fun v => v == 0) orig -> nonneg approx ->
  Forall (fun d => d <= 0) (vsub orig approx).
Proof.
  unfold vsub, nonneg. intros Ho; revert approx.
  induction Ho as [|o os Ho Hos IH]; intros approx Ha; simpl; [constructor|].
  destruct Ha as [|p ps Hp Hps]; constructor; auto.
  lra.
Qed.

Lemma vsub_as_map npix orig approx :
  length orig = npix -> length approx = npix ->
  vsub orig approx = map (fun k => nth k orig 0 - nth k approx 0) (seq 0 npix).
Proof.
  intros Ho Ha. set (f := fun k => nth k orig 0 - nth k approx 0).
  apply nth_ext with (d := 0) (d' := 0).
  - unfold vsub. rewrite map2_length, length_map, length_seq. lia.
  - intros k Hk. unfold vsub in *. rewrite map2_length in Hk.
    rewrite (nth_map2 Qminus orig approx k 0 0 0) by lia.
    rewrite (nth_indep (map f (seq 0 npix)) 0 (f 0%nat))
      by (rewrite length_map, length_seq; lia).
    rewrite (map_nth f (seq 0 npix) 0%nat k), seq_nth by lia. reflexivity.
Qed.

Lemma filter_map_length {A B : Type} (p : B -> bool) (f : A -> B) l :
  length (filter p (map f l)) = length (filter (fun a => p (f a)) l).
Proof.
  induction l as [|a l IH]; simpl; auto.
  destruct (p (f a)); simpl; auto.
Qed.

Lemma positive_part_count npix orig approx :
  length orig = npix -> length approx = npix ->
  length (positive_part (vsub orig approx)) = count_positive_diff npix orig approx.
Proof.
  intros Ho Ha. unfold positive_part, count_positive_diff.
  rewrite (vsub_as_map npix) by auto. apply filter_map_length.
Qed.

Lemma count_positive_diff_le npix orig approx :
  (count_positive_diff npix orig approx <= npix)%nat.
Proof.
  unfold count_positive_diff.
  etransitivity; [apply filter_length_le | rewrite length_seq; auto].
Qed.

Lemma count_positive_diff_zero npix orig approx :
  count_positive_diff npix orig approx = 0%nat
  <-> forall k, (k < npix)%nat -> nth k orig 0 <= nth k approx 0.
Proof.
  unfold count_positive_diff. rewrite length_zero_iff_nil. split.
  - intros H k Hk.
    assert (Hin : In k (seq 0 npix)) by (apply in_seq; lia).
    destruct (Qltb 0 (nth k orig 0 - nth k approx 0)) eqn:E.
    + assert (Hf : In k (filter (fun k => Qltb 0 (nth k orig 0 - nth k approx 0)) (seq 0 npix)))
        by (apply filter_In; auto).
      rewrite H in Hf. destruct Hf.
    + apply Qltb_false in E. lra.
  - intros H.
    destruct (filter _ (seq 0 npix)) as [|k l] eqn:E; auto.
    assert (Hf : In k (filter (fun k => Qltb 0 (nth k orig 0 - nth k approx 0)) (seq 0 npix)))
      by (rewrite E; left; auto).
    apply filter_In in Hf. destruct Hf as [Hin Hp].
    apply in_seq in Hin. apply Qltb_true in Hp.
    specialize (H k ltac:(lia)). lra.
Qed.

Lemma ratio_bounds (c n : nat) :
  (0 < n)%nat -> (c <= n)%nat ->
  let p := inject_Z (Z.of_nat c) / inject_Z (Z.of_nat n) in
  0 <= p /\ p <= 1 /\ (p == 0 <-> c = 0%nat).
Proof.
  intros Hn Hc p.
  assert (Hn' : 0 < inject_Z (Z.of_nat n)).
  { change 0 with (inject_Z 0). rewrite <- Zlt_Qlt. lia. }
  assert (Hc0 : 0 <= inject_Z (Z.of_nat c)).
  { change 0 with (inject_Z 0). rewrite <- Zle_Qle. lia. }
  assert (Hcn : inject_Z (Z.of_nat c) <= inject_Z (Z.of_nat n)).
  { rewrite <- Zle_Qle. lia. }
  unfold p. split; [|split].
  - apply Qle_shift_div_l; try lra.
  - apply Qle_shift_div_r; try lra.
  - split.
    + intros E.
      assert (Hnz : ~ inject_Z (Z.of_nat n) == 0).
      { intro Hz. rewrite Hz in Hn'. exact (Qlt_irrefl 0 Hn'). }
      pose proof (Qmult_div_r (inject_Z (Z.of_nat c)) _ Hnz) as Hq.
      rewrite E in Hq.
      assert (E' : inject_Z (Z.of_nat c) == 0) by (rewrite <- Hq; ring).
      unfold Qeq in E'. simpl in E'. lia.
    + intros ->. change (inject_Z (Z.of_nat 0)) with 0. unfold Qdiv. ring.
Qed.

Lemma pipeline_factors_nonneg ext args a :
  solver_nonneg ext ->
  pipeline ext args = Some (inr a) ->
  nonneg_matrix (saved_W a) /\ nonneg_matrix (saved_H a).
Proof.
  intros Hs Hp.
  apply pipeline_inv in Hp. cbn zeta in Hp.
  destruct Hp as [mz_axis [arr [bright [n [st [acc [Harr [_ [_ [HW [HH _]]]]]]]]]]].
  split.
  - rewrite HW. apply select_cols_nonneg, select_cols_nonneg.
    eapply compute_arr_nonneg; eauto.
  - rewrite HH. apply nnls_frob_nonneg; auto.
Qed.

(** The image cleaned by [get_mz_images] is nowhere above the image the
    noise pass uses. *)
Lemma clean_image_le_orig raw cleaned k :
  clean_image raw = inr cleaned ->
  (k < length raw)%nat ->
  exists perc,
    np_percentile (clean_orig raw) 99 = inr perc
    /\ nth k cleaned 0
       = (if Qltb perc (nth k (clean_orig raw) 0) then perc else nth k (clean_orig raw) 0)
    /\ nth k cleaned 0 <= nth k (clean_orig raw) 0.
Proof.
  unfold clean_image, clean_orig. intros Hc Hk.
  destruct (np_percentile (clamp_neg raw) 99) as [e|perc]; simpl in Hc; [discriminate|].
  inversion Hc; subst cleaned; clear Hc.
  exists perc. split; auto.
  assert (Hn : nth k (clamp_above perc (clamp_neg raw)) 0
               = if Qltb perc (nth k (clamp_neg raw) 0) then perc
                 else nth k (clamp_neg raw) 0).
  { unfold clamp_above.
    rewrite (nth_indep _ 0 ((fun v => if Qltb perc v then perc else v) 0))
      by (rewrite length_map, clamp_neg_length; auto).
    rewrite (map_nth (fun v => if Qltb perc v then perc else v) (clamp_neg raw) 0 k).
    reflexivity. }
  rewrite Hn. split; auto.
  destruct (Qltb perc (nth k (clamp_neg raw) 0)) eqn:E; [|apply Qle_refl].
  apply Qltb_true in E. lra.
Qed.

(** ** How a run can fail *)

Lemma mapM_error {A B : Type} (f : A -> result B) (P : exn -> Prop) l e :
  (forall a e, f a = inl e -> P e) -> mapM f l = inl e -> P e.
Proof.
  intros Hf. induction l as [|a l IH]; simpl; [discriminate|].
  destruct (f a) as [e1|b] eqn:Ea; simpl.
  - intros H; inversion H; subst. eauto.
  - destruct (mapM f l) as [e2|bs]; simpl; [|discriminate].
    intros H; inversion H; subst. auto.
Qed.

Lemma clean_image_error img e : clean_image img = inl e -> e = IndexError.
Proof.
  unfold clean_image, np_percentile.
  destruct (clamp_neg img); simpl; [|discriminate].
  intros H; inversion H; auto.
Qed.

Lemma compute_arr_error imzb mz_axis e :
  compute_arr imzb mz_axis = inl e -> e = IndexError.
Proof.
  rewrite compute_arr_eq. unfold get_mz_images.
  apply (mapM_error _ (fun e => e = IndexError)).
  intros bin e'. apply clean_image_error.
Qed.

Lemma noise_step_error ext imzb W H_full acc i bin e :
  noise_step ext imzb W H_full acc i bin = inl e ->
  e = IndexError \/ e = ValueError
  \/ (e = ZeroDivisionError /\ (height imzb * width imzb = 0)%nat).
Proof.
  unfold noise_step. intros H.
  destruct (nth_error H_full i) as [h|]; [|inversion H; auto].
  destruct (negb (Nat.eqb (length h) (length W))); [inversion H; auto|].
  match type of H with
  | context [forallb ?f W] => destruct (negb (forallb f W))
  end; [inversion H; auto|].
  match type of H with
  | context [negb (Nat.eqb ?a ?b)] => destruct (negb (Nat.eqb a b))
  end; [inversion H; auto|].
  destruct (Nat.eqb (width imzb * height imzb) 0) eqn:E.
  - apply Nat.eqb_eq in E. inversion H; subst. right; right. split; [auto | lia].
  - destruct (Qltb 0 _); discriminate.
Qed.

Lemma noise_loop_error ext imzb W H_full : forall mz_axis acc i e,
  noise_loop ext imzb W H_full acc i mz_axis = inl e ->
  e = IndexError \/ e = ValueError
  \/ (e = ZeroDivisionError /\ (height imzb * width imzb = 0)%nat).
Proof.
  induction mz_axis as [|bin rest IH]; intros acc i e; cbn [noise_loop]; [discriminate|].
  destruct (noise_step ext imzb W H_full acc i bin) as [e1|acc1] eqn:Es; simpl.
  - intros H; inversion H; subst. eapply noise_step_error; eauto.
  - apply IH.
Qed.

Lemma pipeline_error ext args e :
  pipeline ext args = Some (inl e) ->
  e = AssertionError \/ e = IndexError \/ e = ValueError \/ e = ZeroDivisionError.
Proof.
  unfold pipeline. cbn zeta. intros H.
  destruct (assert (Qltb 0 _)) as [e1|[]] eqn:E1; simpl in H.
  { unfold assert in E1. destruct (Qltb 0 _); [discriminate|].
    inversion E1; subst. inversion H; auto. }
  destruct (assert (Qltb 1 _)) as [e2|[]] eqn:E2; simpl in H.
  { unfold assert in E2. destruct (Qltb 1 _); [discriminate|].
    inversion E2; subst. inversion H; auto. }
  destruct (da_Array _) as [e0|[]] eqn:E0; simpl in H.
  { unfold da_Array in E0. destruct (chunks_mz _); [|discriminate].
    inversion E0; subst. inversion H; auto. }
  destruct (compute_arr _ _) as [e3|arr] eqn:E3; simpl in H.
  { apply compute_arr_error in E3. inversion H; subst; auto. }
  destruct (xray _ _ _ _) as [[e4|[n st]]|] eqn:Ex; [| |discriminate].
  { inversion H; subst. apply xray_loop_error in Ex. tauto. }
  destruct (noise_pass _ _ _ _ _) as [e5|acc] eqn:En; simpl in H; [|discriminate].
  inversion H; subst. apply noise_loop_error in En.
  destruct En as [En|[En|[En _]]]; auto.
Qed.

Lemma xray_terminates ext npix x r : exists res, xray ext npix x r = Some res.
Proof.
  unfold xray. apply xray_loop_terminates. simpl. lia.
Qed.

Lemma pipeline_terminates ext args : exists res, pipeline ext args = Some res.
Proof.
  unfold pipeline. cbn zeta.
  destruct (assert (Qltb 0 _)) as [e|[]]; simpl; [eauto|].
  destruct (assert (Qltb 1 _)) as [e|[]]; simpl; [eauto|].
  destruct (da_Array _) as [e|[]]; simpl; [eauto|].
  destruct (compute_arr _ _) as [e|arr]; simpl; [eauto|].
  match goal with
  | |- context [xray ?e ?n ?x ?r] => destruct (xray_terminates e n x r) as [res Hx]; rewrite Hx
  end.
  destruct res as [e|[n st]]; eauto.
Qed.

Lemma main_terminates ext args : exists t res, main ext args = Some (t, res).
Proof.
  unfold main. destruct (rank args <? 10)%Z; [eauto|].
  destruct (pipeline_terminates ext args) as [[e|a] Hp]; rewrite Hp; eauto.
Qed.

(** ** Facts about the concrete instance *)

Lemma demo_nnls_column_nonneg A b : nonneg (Demo.nnls_column A b).
Proof.
  induction A as [|a A IH]; simpl; [constructor|].
  destruct (Qeq_bool (dot a a) 0).
  - constructor; [apply Qle_refl | exact IH].
  - constructor; [| apply repeat_nonneg].
    destruct (Qltb (dot a b / dot a a) 0) eqn:E; [apply Qle_refl|].
    apply Qltb_false in E; exact E.
Qed.

Lemma demo_solver_nonneg axis : solver_nonneg (Demo.ext axis).
Proof.
  intros A B. simpl. unfold Demo.solver. apply Forall_forall. intros c Hc.
  apply in_map_iff in Hc. destruct Hc as [b [<- _]]. apply demo_nnls_column_nonneg.
Qed.

Lemma demo_solver_columnwise axis : solver_columnwise (Demo.ext axis).
Proof. exists Demo.nnls_column. intros A B. reflexivity. Qed.

Lemma demo_reader_shape path : reader_shape (Demo.reader path).
Proof. intros mz ppm. reflexivity. Qed.

(** * The claims *)

(** C1 (as stated, refuted).  The noise pass does not clean its image the
    way [get_mz_images] does: on the two-pixel image [0, 100] the cleaning of
    [get_mz_images] clips the bright pixel to the 99th percentile, 99, while
    the noise pass keeps 100. *)
Lemma noise_pass_keeps_outliers :
  clean_orig [0; 100] = [0; 100]
  /\ exists cleaned,
       clean_image [0; 100] = inr cleaned
       /\ Forall2 Qeq cleaned [0; 99]
       /\ ~ Forall2 Qeq cleaned (clean_orig [0; 100]).
Proof.
  split; [reflexivity|].
  eexists. split; [vm_compute; reflexivity|]. split.
  - repeat constructor; reflexivity.
  - intros H. inversion H as [|? ? ? ? _ H1]; subst.
    inversion H1 as [|? ? ? ? H2 _]; subst.
    vm_compute in H2. discriminate.
Qed.

(** C1 (amended).  In the noise pass the fetched image is cleaned only by
    clamping negative intensities to 0, pixel by pixel, and the residual and
    the recorded probability are computed from that image; no percentile
    clipping is applied.  The image cleaned by [get_mz_images] is this image
    clipped at its 99th percentile, hence nowhere above it. *)
Theorem noise_pass_clamps_negatives_only (imzb : Imzb) (bin : Q * Q) :
  let raw := get_mz_image imzb (fst bin) (snd bin) in
  let orig := orig_of imzb bin in
  length orig = length raw
  /\ (forall k, (k < length raw)%nat ->
        nth k orig 0 = if Qltb (nth k raw 0) 0 then 0 else nth k raw 0)
  /\ (forall ext W H_full acc i acc1,
        noise_step ext imzb W H_full acc i bin = inr acc1 ->
        prob acc1 = prob acc ++
          [inject_Z (Z.of_nat (length (positive_part (vsub orig (approx_of imzb W H_full i)))))
           / inject_Z (Z.of_nat (width imzb * height imzb))])
  /\ (forall cleaned, clean_image raw = inr cleaned ->
        exists perc, np_percentile orig 99 = inr perc
          /\ forall k, (k < length raw)%nat ->
               nth k cleaned 0 = (if Qltb perc (nth k orig 0) then perc else nth k orig 0)
               /\ nth k cleaned 0 <= nth k orig 0).
Proof.
  intros raw orig. split; [apply clamp_neg_length|]. split; [|split].
  - intros k Hk. unfold orig, orig_of, clean_orig, clamp_neg. fold raw.
    rewrite (nth_indep _ 0 ((fun v => if Qltb v 0 then 0 else v) 0))
      by (rewrite length_map; auto).
    rewrite (map_nth (fun v => if Qltb v 0 then 0 else v) raw 0 k). reflexivity.
  - intros ext W H_full acc i acc1 Hs.
    apply noise_step_inv in Hs. destruct Hs as [_ [Hp _]]. rewrite Hp.
    unfold bin_record. cbn [fst snd]. fold orig.
    destruct (Qltb 0 _); reflexivity.
  - intros cleaned Hc.
    destruct (np_percentile orig 99) as [e|perc] eqn:Ep.
    + unfold clean_image in Hc. change (clamp_neg raw) with orig in Hc.
      rewrite Ep in Hc. discriminate.
    + exists perc. split; auto. intros k Hk.
      destruct (clean_image_le_orig raw cleaned k Hc Hk) as [perc' [Ep' [Hn Hle]]].
      change (clean_orig raw) with orig in Ep', Hn, Hle.
      rewrite Ep in Ep'. inversion Ep'; subst perc'. split; auto.
Qed.

(** C3.  With [--rank] below 10 the script prints the error message and
    exits with status 1: the message is the only effect (the input is not
    opened, nothing is saved), whatever the collaborators are.  With a rank
    of at least 10 the check passes and the run proceeds: it opens the input,
    never prints the message, never exits with status 1, and saves an archive
    exactly when the rest of the script completes. *)
Theorem rank_validation (ext : Extern) (args : Args) :
  ((rank args < 10)%Z ->
     main ext args = Some ([Stdout rank_message], inl (SystemExit 1)))
  /\ ((10 <= rank args)%Z ->
        exists t res,
          main ext args = Some (t, res)
          /\ hd_error t = Some (OpenInput (input args))
          /\ ~ In (Stdout rank_message) t
          /\ res <> inl (SystemExit 1)
          /\ (res = inr tt <->
              exists a, pipeline ext args = Some (inr a)
                        /\ t = [OpenInput (input args); SaveArchive (output args) a])).
Proof.
  split.
  - intros Hr. unfold main. apply Z.ltb_lt in Hr. rewrite Hr. reflexivity.
  - intros Hr. destruct (main_terminates ext args) as [t [res H]].
    exists t, res. split; [exact H|].
    unfold main in H. apply Z.ltb_ge in Hr. rewrite Hr in H.
    destruct (pipeline ext args) as [[e|a]|] eqn:Ep; [| |discriminate].
    + inversion H; subst; clear H. split; [reflexivity|]. split; [|split].
      * intros [Hin|[]]. discriminate.
      * intros E. inversion E; subst.
        apply pipeline_error in Ep. intuition discriminate.
      * split; [discriminate|]. intros [a [Ha _]]. discriminate.
    + inversion H; subst; clear H. split; [reflexivity|]. split; [|split].
      * intros [Hin|[Hin|[]]]; discriminate.
      * discriminate.
      * split; auto. intros _. exists a. auto.
Qed.

Lemma rank_validation_witness :
  main (Demo.ext Demo.axis11) (Demo.args 9)
  = Some ([Stdout rank_message], inl (SystemExit 1))
  /\ exists t res,
       main (Demo.ext Demo.axis11) (Demo.args 10) = Some (t, res)
       /\ hd_error t = Some (OpenInput "in.imzb").
Proof.
  split.
  - apply (proj1 (rank_validation (Demo.ext Demo.axis11) (Demo.args 9))).
    simpl. lia.
  - destruct (proj2 (rank_validation (Demo.ext Demo.axis11) (Demo.args 10)))
      as [t [res [H1 [H2 _]]]].
    + simpl. lia.
    + exists t, res. split; [exact H1 | exact H2].
Defined.

(** The demo run with 11 bins and rank 10 saves an archive. *)
Lemma demo_run_saves :
  exists a,
    main (Demo.ext Demo.axis11) (Demo.args 10)
    = Some ([OpenInput "in.imzb"; SaveArchive "out.npz" a], inr tt).
Proof.
  eexists. vm_compute. reflexivity.
Defined.

(** C4.  Every entry of the saved basis [W] and of the saved coefficients
    [H] is non-negative, given a solver that returns non-negative
    solutions: the columns of [W] are images cleaned by [get_mz_images], and
    every column of [H] is either left at its initial zeros or written from
    a solver result. *)
Theorem saved_factors_nonneg (ext : Extern) (args : Args)
    (t : list event) (res : result unit) (path : string) (a : Archive) :
  solver_nonneg ext ->
  main ext args = Some (t, res) ->
  In (SaveArchive path a) t ->
  nonneg_matrix (saved_W a) /\ nonneg_matrix (saved_H a).
Proof.
  intros Hs Hm Hin.
  destruct (main_saved _ _ _ _ _ _ Hm Hin) as [Hp _].
  destruct (pipeline_factors_nonneg ext args a Hs Hp) as [HW HH].
  split.
  - unfold nonneg_matrix, nonneg in *. exact HW.
  - unfold nonneg_matrix, nonneg in *. exact HH.
Qed.

Lemma saved_factors_nonneg_witness :
  exists a,
    main (Demo.ext Demo.axis11) (Demo.args 10)
    = Some ([OpenInput "in.imzb"; SaveArchive "out.npz" a], inr tt)
    /\ nonneg_matrix (saved_W a) /\ nonneg_matrix (saved_H a).
Proof.
  destruct demo_run_saves as [a Ha]. exists a.
  split; [exact Ha|].
  refine (saved_factors_nonneg (Demo.ext Demo.axis11) (Demo.args 10) _ _ "out.npz" a
            (demo_solver_nonneg Demo.axis11) Ha _).
  right; left; reflexivity.
Defined.

(** C8.  [nnls_frob] walks the target columns in batches of at most 100
    consecutive indices that together cover every column once, in order, and
    writes each batch's solution into those columns; for a solver that
    treats target columns independently the result is the one of a single
    call on all the columns. *)
Theorem nnls_frob_batching (ext : Extern) (x anchors : matrix) :
  solver_columnwise ext ->
  let batches := partition_all 100 (seq 0 (length x)) in
  Forall (fun c => (0 < length c <= 100)%nat) batches
  /\ concat batches = seq 0 (length x)
  /\ nnls_frob ext x anchors
     = fold_left
         (fun result chunk =>
            assign_cols result chunk (nnlsm_blockpivot ext anchors (select_cols x chunk)))
         batches (repeat (repeat 0 (length anchors)) (length x))
  /\ nnls_frob ext x anchors = nnlsm_blockpivot ext anchors x.
Proof.
  intros [solve1 Hs] batches. split; [|split; [|split]].
  - apply partition_go_sizes. simpl. lia.
  - apply partition_all_concat.
  - reflexivity.
  - rewrite Hs. apply nnls_frob_columnwise; auto.
Qed.

Lemma nnls_frob_batching_witness :
  nnls_frob (Demo.ext Demo.axis11) (repeat [3; 0] 250) [[2; 0]]
  = nnlsm_blockpivot (Demo.ext Demo.axis11) [[2; 0]] (repeat [3; 0] 250).
Proof.
  apply (nnls_frob_batching (Demo.ext Demo.axis11) (repeat [3; 0] 250) [[2; 0]]
           (demo_solver_columnwise Demo.axis11)).
Defined.

(** C7.  In a run that saves an archive, with a solver returning
    non-negative solutions, a bin whose image in the noise pass is entirely
    zero is recorded with noise probability 0, sqrt-median 0 and sqrt-std 0:
    the reconstruction [W.h] is non-negative, so no entry of the difference
    is strictly positive. *)
Theorem zero_image_noise_stats (ext : Extern) (args : Args)
    (t : list event) (res : result unit) (path : string) (a : Archive)
    (i : nat) (bin : Q * Q) :
  solver_nonneg ext ->
  main ext args = Some (t, res) ->
  In (SaveArchive path a) t ->
  nth_error (saved_mz_axis a) i = Some bin ->
  Forall (fun v => v == 0) (orig_of (ImzbReader ext (input args)) bin) ->
  positive_part (vsub (orig_of (ImzbReader ext (input args)) bin)
                   (approx_of (ImzbReader ext (input args)) (saved_W a) (saved_H a) i)) = []
  /\ nth_error (saved_noise_prob a) i = Some (0 / inject_Z (Z.of_nat
        (width (ImzbReader ext (input args)) * height (ImzbReader ext (input args)))))
  /\ nth i (saved_noise_prob a) 1 == 0
  /\ nth_error (saved_noise_sqrt_avg a) i = Some 0
  /\ nth_error (saved_noise_sqrt_std a) i = Some 0.
Proof.
  intros Hs Hm Hin Hbin Hzero.
  destruct (main_saved _ _ _ _ _ _ Hm Hin) as [Hp _].
  destruct (pipeline_factors_nonneg ext args a Hs Hp) as [HW HH].
  apply pipeline_inv in Hp. cbn zeta in Hp.
  destruct Hp as [mz_axis [arr [bright [n [st [acc [_ [_ [Hn [_ [_ [Hax [Hpr [Hav [Hsd _]]]]]]]]]]]]]]].
  set (imzb := ImzbReader ext (input args)) in *.
  unfold noise_pass in Hn. apply noise_loop_inv in Hn. cbn zeta in Hn.
  destruct Hn as [Hp' [Hm' [Hs' _]]]. simpl in Hp', Hm', Hs'.
  rewrite Hax in Hbin.
  assert (Hnoise : positive_part (vsub (orig_of imzb bin)
                                    (approx_of imzb (saved_W a) (saved_H a) i)) = []).
  { apply positive_part_empty, vsub_nonpositive; auto.
    apply mat_vec_nonneg; auto.
    apply Forall_nth_default; [constructor | exact HH]. }
  assert (Hrec : bin_record ext imzb (saved_W a) (saved_H a) (i, bin)
                 = (0 / inject_Z (Z.of_nat (width imzb * height imzb)), 0, 0)).
  { unfold bin_record. cbn [fst snd]. rewrite Hnoise. cbn [length].
    change (inject_Z (Z.of_nat 0)) with 0.
    destruct (Qltb 0 (0 / _)) eqn:E; auto.
    apply Qltb_true in E. unfold Qdiv in E. rewrite Qmult_0_l in E.
    exfalso. exact (Qlt_irrefl 0 E). }
  assert (Hnth : forall (f : Q * Q * Q -> Q),
             nth_error (map f (map (bin_record ext imzb (saved_W a) (saved_H a))
                                 (combine (seq 0 (length mz_axis)) mz_axis))) i
             = Some (f (0 / inject_Z (Z.of_nat (width imzb * height imzb)), 0, 0))).
  { intros f. rewrite map_map, nth_error_map.
    rewrite (nth_error_combine_seq mz_axis 0%nat i bin Hbin). simpl.
    rewrite Hrec. reflexivity. }
  rewrite Hpr, Hav, Hsd, Hp', Hm', Hs'.
  split; [exact Hnoise|].
  split; [apply (Hnth (fun rec => fst (fst rec)))|].
  split; [|split; [apply (Hnth (fun rec => snd (fst rec))) | apply (Hnth (fun rec => snd rec))]].
  rewrite (nth_error_nth _ _ 1 (Hnth (fun rec => fst (fst rec)))). simpl.
  unfold Qdiv. apply Qmult_0_l.
Qed.

Lemma zero_image_noise_stats_witness :
  exists a,
    main (Demo.ext Demo.axis11) (Demo.args 10)
    = Some ([OpenInput "in.imzb"; SaveArchive "out.npz" a], inr tt)
    /\ nth 0 (saved_noise_prob a) 1 == 0
    /\ nth_error (saved_noise_sqrt_avg a) 0 = Some 0
    /\ nth_error (saved_noise_sqrt_std a) 0 = Some 0.
Proof.
  eexists. split; [vm_compute; reflexivity|].
  match goal with |- context [saved_noise_prob ?a] => set (arch := a) end.
  assert (Hm : main (Demo.ext Demo.axis11) (Demo.args 10)
               = Some ([OpenInput "in.imzb"; SaveArchive "out.npz" arch], inr tt))
    by (vm_compute; reflexivity).
  assert (Hin : In (SaveArchive "out.npz" arch)
                  [OpenInput "in.imzb"; SaveArchive "out.npz" arch])
    by (right; left; reflexivity).
  destruct (zero_image_noise_stats (Demo.ext Demo.axis11) (Demo.args 10) _ _ _ _
              0%nat (100, 1) (demo_solver_nonneg Demo.axis11) Hm Hin)
    as [_ [_ [H1 [H2 H3]]]].
  - vm_compute. reflexivity.
  - vm_compute. repeat constructor.
  - split; [exact H1 | split; [exact H2 | exact H3]].
Defined.

(** C5.  The minimum-intensity map starts at +infinity everywhere and is
    updated bin after bin, in axis order, by [update_min], which changes a
    pixel only where that bin's image is positive and then takes the
    minimum.  After the pass, a pixel that is positive in at least one bin's
    image (which includes every pixel positive in the image as cleaned by
    [get_mz_images]) holds a finite value: the least of that pixel's
    positive values over all bins. *)
Theorem min_intensity_map_spec (ext : Extern) (imzb : Imzb) (W H_full : matrix)
    (mz_axis : list (Q * Q)) (k : nat) :
  reader_shape imzb ->
  factors_shape imzb W H_full mz_axis ->
  (k < height imzb * width imzb)%nat ->
  exists acc,
    noise_pass ext imzb W H_full mz_axis = inr acc
    /\ min_intensities acc
       = fold_left update_min (map (orig_of imzb) mz_axis)
           (repeat PInf (height imzb * width imzb))
    /\ (forall mm img d,
          (k < length mm)%nat -> (k < length img)%nat ->
          nth k (update_min mm img) d
          = if Qltb 0 (nth k img 0) then fmin (nth k mm d) (Fin (nth k img 0))
            else nth k mm d)
    /\ (forall bin cleaned,
          clean_image (get_mz_image imzb (fst bin) (snd bin)) = inr cleaned ->
          0 < nth k cleaned 0 -> 0 < nth k (orig_of imzb bin) 0)
    /\ ((exists bin, In bin mz_axis /\ 0 < nth k (orig_of imzb bin) 0) ->
        exists m,
          nth k (min_intensities acc) NaN = Fin m
          /\ 0 < m
          /\ (exists bin, In bin mz_axis /\ nth k (orig_of imzb bin) 0 = m)
          /\ (forall bin, In bin mz_axis -> 0 < nth k (orig_of imzb bin) 0 ->
                m <= nth k (orig_of imzb bin) 0)).
Proof.
  intros Hshape Hfactors Hk.
  destruct (noise_pass_total ext imzb W H_full mz_axis ltac:(lia) Hshape Hfactors)
    as [acc Hacc].
  exists acc. split; [exact Hacc|].
  unfold noise_pass in Hacc. apply noise_loop_inv in Hacc. cbn zeta in Hacc.
  destruct Hacc as [_ [_ [_ [Hmin _]]]]. simpl in Hmin.
  split; [exact Hmin|]. split; [intros; apply update_min_nth; auto|]. split.
  { intros bin cleaned Hc Hpos.
    destruct (clean_image_le_orig _ cleaned k Hc) as [perc [_ [_ Hle]]].
    - rewrite Hshape. exact Hk.
    - unfold orig_of. lra. }
  intros [bin [Hin Hpos]].
  rewrite Hmin.
  rewrite (fold_update_min_nth (height imzb * width imzb) k NaN); auto.
  - rewrite nth_repeat_lt by auto.
    destruct (pixel_min_from_infinity
                (map (fun img => nth k img 0) (map (orig_of imzb) mz_axis)))
      as [m [Hm [Hmpos [Hmin' Hall]]]].
    + exists (nth k (orig_of imzb bin) 0). split; auto.
      rewrite map_map. apply in_map_iff. exists bin; auto.
    + exists m. split; [exact Hm|]. split; [exact Hmpos|]. split.
      * rewrite map_map in Hmin'. apply in_map_iff in Hmin'.
        destruct Hmin' as [b [Hb Hinb]]. exists b; auto.
      * intros b Hb Hbpos. apply Hall; auto.
        rewrite map_map. apply in_map_iff. exists b; auto.
  - apply Forall_forall. intros img Himg. apply in_map_iff in Himg.
    destruct Himg as [b [<- _]]. unfold orig_of, clean_orig.
    rewrite clamp_neg_length. apply Hshape.
  - apply repeat_length.
Qed.

Lemma min_intensity_map_spec_witness :
  exists acc m,
    noise_pass (Demo.ext Demo.axis11) (Demo.reader "in.imzb") [[1; 0]] (repeat [1] 11)
      Demo.axis11 = inr acc
    /\ nth 0 (min_intensities acc) NaN = Fin m
    /\ 0 < m
    /\ m <= nth 0 (orig_of (Demo.reader "in.imzb") (103, 1)) 0.
Proof.
  destruct (min_intensity_map_spec (Demo.ext Demo.axis11) (Demo.reader "in.imzb")
              [[1; 0]] (repeat [1] 11) Demo.axis11 0%nat (demo_reader_shape "in.imzb"))
    as [acc [Hacc [_ [_ [_ Hpos]]]]].
  - split; [repeat constructor|]. split; [reflexivity | repeat constructor].
  - simpl. lia.
  - destruct Hpos as [m [Hm [Hmpos [_ Hall]]]].
    + exists (101, 1). split; [right; left; reflexivity | vm_compute; reflexivity].
    + exists acc, m. split; [exact Hacc|]. split; [exact Hm|]. split; [exact Hmpos|].
      apply Hall; [do 3 right; left; reflexivity | vm_compute; reflexivity].
Defined.

(** C6.  For every bin the recorded noise probability is the number of
    pixels where original minus approximate is strictly positive, divided
    by height x width; it lies between 0 and 1, and it is 0 exactly when the
    approximate image is at least the original at every pixel. *)
Theorem noise_prob_spec (ext : Extern) (imzb : Imzb) (W H_full : matrix)
    (mz_axis : list (Q * Q)) :
  let npix := (height imzb * width imzb)%nat in
  (0 < npix)%nat ->
  reader_shape imzb ->
  factors_shape imzb W H_full mz_axis ->
  exists acc,
    noise_pass ext imzb W H_full mz_axis = inr acc
    /\ length (prob acc) = length mz_axis
    /\ forall i bin,
         nth_error mz_axis i = Some bin ->
         let orig := orig_of imzb bin in
         let approx := approx_of imzb W H_full i in
         let p := nth i (prob acc) 0 in
         nth_error (prob acc) i
         = Some (inject_Z (Z.of_nat (count_positive_diff npix orig approx))
                 / inject_Z (Z.of_nat (width imzb * height imzb)))
         /\ 0 <= p /\ p <= 1
         /\ (p == 0 <-> forall k, (k < npix)%nat -> nth k orig 0 <= nth k approx 0).
Proof.
  intros npix Hpos Hshape Hfactors.
  pose proof (proj1 Hfactors) as HW.
  destruct (noise_pass_total ext imzb W H_full mz_axis Hpos Hshape Hfactors)
    as [acc Hacc].
  exists acc. split; [exact Hacc|].
  unfold noise_pass in Hacc. apply noise_loop_inv in Hacc. cbn zeta in Hacc.
  destruct Hacc as [Hp _]. simpl in Hp.
  split.
  - rewrite Hp, !length_map, length_combine, length_seq. apply Nat.min_id.
  - intros i bin Hbin orig approx p.
    assert (Horig : length orig = npix).
    { unfold orig, orig_of, clean_orig. rewrite clamp_neg_length. apply Hshape. }
    assert (Happrox : length approx = npix).
    { unfold approx, approx_of. apply mat_vec_length; auto. }
    assert (Hnth : nth_error (prob acc) i
                   = Some (inject_Z (Z.of_nat (count_positive_diff npix orig approx))
                           / inject_Z (Z.of_nat (width imzb * height imzb)))).
    { rewrite Hp, map_map, nth_error_map.
      rewrite (nth_error_combine_seq mz_axis 0%nat i bin Hbin). simpl.
      unfold bin_record. cbn [fst snd]. fold orig. fold approx.
      rewrite (positive_part_count npix) by auto.
      destruct (Qltb 0 _); reflexivity. }
    split; [exact Hnth|].
    unfold p. rewrite (nth_error_nth _ _ 0 Hnth).
    pose proof (count_positive_diff_le npix orig approx) as Hle.
    destruct (ratio_bounds (count_positive_diff npix orig approx) (width imzb * height imzb))
      as [H0 [H1 Hz]].
    + unfold npix in *. lia.
    + unfold npix in *. lia.
    + split; [exact H0|]. split; [exact H1|].
      rewrite Hz. apply count_positive_diff_zero.
Qed.

Lemma noise_prob_spec_witness :
  exists acc,
    noise_pass (Demo.ext Demo.axis11) (Demo.reader "in.imzb") [[1; 0]] (repeat [1] 11)
      Demo.axis11 = inr acc
    /\ length (prob acc) = 11%nat
    /\ 0 <= nth 1 (prob acc) 0 /\ nth 1 (prob acc) 0 <= 1.
Proof.
  destruct (noise_prob_spec (Demo.ext Demo.axis11) (Demo.reader "in.imzb")
              [[1; 0]] (repeat [1] 11) Demo.axis11)
    as [acc [Hacc [Hlen Hbins]]].
  - simpl. lia.
  - apply demo_reader_shape.
  - split; [repeat constructor|]. split; [reflexivity | repeat constructor].
  - exists acc. split; [exact Hacc|]. split; [exact Hlen|].
    destruct (Hbins 1%nat (101, 1) eq_refl) as [_ [H0 [H1 _]]].
    split; [exact H0 | exact H1].
Defined.

(** C10.  In the saved archive, a pixel at which no bin's image is positive
    still holds +infinity in [min_intensities]: nothing in the pass replaces
    the initial value there, so the archive can hold non-finite entries. *)
Theorem min_intensity_stays_infinite (ext : Extern) (args : Args)
    (t : list event) (res : result unit) (path : string) (a : Archive) (k : nat) :
  let imzb := ImzbReader ext (input args) in
  reader_shape imzb ->
  main ext args = Some (t, res) ->
  In (SaveArchive path a) t ->
  (k < height imzb * width imzb)%nat ->
  (forall bin, In bin (saved_mz_axis a) -> nth k (orig_of imzb bin) 0 <= 0) ->
  nth_error (saved_min_intensities a) k = Some PInf.
Proof.
  intros imzb Hshape Hm Hin Hk Hnone.
  destruct (main_saved _ _ _ _ _ _ Hm Hin) as [Hp _].
  apply pipeline_inv in Hp. cbn zeta in Hp. fold imzb in Hp.
  destruct Hp as [mz_axis [arr [bright [n [st [acc [_ [_ [Hn [_ [_ [Hax [_ [_ [_ Hmi]]]]]]]]]]]]]]].
  unfold noise_pass in Hn. apply noise_loop_inv in Hn. cbn zeta in Hn.
  destruct Hn as [_ [_ [_ [Hmin _]]]]. simpl in Hmin.
  rewrite Hax in Hnone.
  assert (Himgs : Forall (fun img => length img = (height imzb * width imzb)%nat)
                    (map (orig_of imzb) mz_axis)).
  { apply Forall_forall. intros img Himg. apply in_map_iff in Himg.
    destruct Himg as [b [<- _]]. unfold orig_of, clean_orig.
    rewrite clamp_neg_length. apply Hshape. }
  assert (Hlen : length (saved_min_intensities a) = (height imzb * width imzb)%nat).
  { rewrite Hmi, Hmin. clear - Himgs.
    generalize (repeat_length PInf (height imzb * width imzb)).
    generalize (repeat PInf (height imzb * width imzb)).
    induction Himgs as [|img imgs Hi Hr IH]; intros mm Hmm; simpl; auto.
    apply IH. unfold update_min. rewrite map2_length. lia. }
  rewrite (nth_error_nth' _ NaN) by lia. f_equal.
  rewrite Hmi, Hmin.
  rewrite (fold_update_min_nth (height imzb * width imzb) k NaN); auto.
  - rewrite nth_repeat_lt by auto. apply pixel_min_unchanged.
    apply Forall_forall. intros o Ho. rewrite map_map in Ho.
    apply in_map_iff in Ho. destruct Ho as [b [<- Hb]]. auto.
  - apply repeat_length.
Qed.

Lemma min_intensity_stays_infinite_witness :
  exists a,
    main (Demo.ext Demo.axis11) (Demo.args 10)
    = Some ([OpenInput "in.imzb"; SaveArchive "out.npz" a], inr tt)
    /\ nth_error (saved_min_intensities a) 1 = Some PInf.
Proof.
  eexists. split; [vm_compute; reflexivity|].
  match goal with |- context [saved_min_intensities ?a] => set (arch := a) end.
  assert (Hm : main (Demo.ext Demo.axis11) (Demo.args 10)
               = Some ([OpenInput "in.imzb"; SaveArchive "out.npz" arch], inr tt))
    by (vm_compute; reflexivity).
  assert (Hin : In (SaveArchive "out.npz" arch)
                  [OpenInput "in.imzb"; SaveArchive "out.npz" arch])
    by (right; left; reflexivity).
  apply (min_intensity_stays_infinite (Demo.ext Demo.axis11) (Demo.args 10) _ _ _ _ 1%nat
           (demo_reader_shape "in.imzb") Hm Hin).
  - simpl. lia.
  - intros bin _. vm_compute. discriminate.
Defined.

(** C2 (as stated, refuted).  The score of a selected column is set to -1,
    not to minus infinity, and the duplicate-pick assertion can be reached:
    on a dataset with a single bin and rank 10, the second iteration finds
    only the masked score of column 0, picks column 0 again and the
    assertion aborts the run. *)
Lemma duplicate_pick_assertion_reached :
  mask_selected [0%nat] [Fin 5] = [Fin (-1)]
  /\ (exists st1,
        xray_step (Demo.ext Demo.axis1) 2 [[99 # 100; 0]]
          {| cols := []; R := [[99 # 100; 0]] |} = inr st1
        /\ cols st1 = [0%nat]
        /\ np_argmax (mask_selected (cols st1)
                        (raw_scores (random_random (Demo.ext Demo.axis1) 1 2) (R st1)
                           [[99 # 100; 0]])) = inr 0%nat
        /\ xray_step (Demo.ext Demo.axis1) 2 [[99 # 100; 0]] st1 = inl AssertionError)
  /\ main (Demo.ext Demo.axis1) (Demo.args 10)
     = Some ([OpenInput "in.imzb"], inl AssertionError).
Proof.
  split; [reflexivity|]. split.
  - eexists. split; [vm_compute; reflexivity|].
    repeat split; vm_compute; reflexivity.
  - vm_compute. reflexivity.
Qed.

(** C2 (amended).  In every iteration the score of every selected column is
    set to -1 before the argmax.  An iteration that does not abort appends a
    column that was not selected before; this is the case whenever some
    column that is not selected yet scores above -1.  Whenever the loop
    completes, the selected columns are pairwise distinct indices of the
    working matrix and their number is the requested rank. *)
Theorem selected_columns_distinct (ext : Extern) (npix : nat) (x : matrix) (r : Z) :
  (forall cols scores j,
      (j < length scores)%nat ->
      nth j (mask_selected cols scores) NaN
      = if mem j cols then Fin (-1) else nth j scores NaN)
  /\ (forall st st',
        xray_step ext npix x st = inr st' ->
        exists b, cols st' = cols st ++ [b] /\ ~ In b (cols st) /\ (b < length x)%nat)
  /\ (forall st j,
        let scores := raw_scores (random_random ext (length (cols st)) npix) (R st) x in
        (j < length scores)%nat ->
        mem j (cols st) = false ->
        fgt (nth j scores NaN) (Fin (-1)) = true ->
        exists st', xray_step ext npix x st = inr st')
  /\ (forall n st,
        xray ext npix x r = Some (inr (n, st)) ->
        Z.of_nat (length (cols st)) = Z.max r 0
        /\ NoDup (cols st)
        /\ Forall (fun j => (j < length x)%nat) (cols st)).
Proof.
  split; [|split; [|split]].
  - intros cols scores j Hj. apply mask_selected_nth; auto.
  - apply xray_step_fresh.
  - apply xray_step_succeeds.
  - intros n st H. unfold xray in H.
    apply xray_loop_spec in H; [| constructor | constructor].
    destruct H as [Hnd [Hrange [Hlen _]]]. simpl in Hlen.
    split; [exact Hlen|]. split; [exact Hnd | exact Hrange].
Qed.

Lemma selected_columns_distinct_witness :
  exists n st,
    xray (Demo.ext Demo.axis11) 2 [[3; 0]; [0; 0]; [2; 0]; [1; 0]] 4 = Some (inr (n, st))
    /\ cols st = [1; 0; 2; 3]%nat
    /\ NoDup (cols st).
Proof.
  eexists _, _. split; [vm_compute; reflexivity|]. split; [reflexivity|].
  apply (proj2 (proj2 (proj2 (selected_columns_distinct (Demo.ext Demo.axis11) 2
                                [[3; 0]; [0; 0]; [2; 0]; [1; 0]] 4))) 4%nat).
  vm_compute. reflexivity.
Defined.

(** C9 (as stated, refuted).  With rank 10 on a working matrix of three
    columns the loop appends three columns and aborts in its fourth
    iteration on the duplicate-pick assertion: it does not produce ten
    selected columns. *)
Lemma xray_aborts_before_rank :
  xray (Demo.ext Demo.axis11) 2 [[3; 0]; [2; 0]; [1; 0]] 10 = Some (inl AssertionError)
  /\ exists st,
       xray (Demo.ext Demo.axis11) 2 [[3; 0]; [2; 0]; [1; 0]] 3 = Some (inr (3%nat, st))
       /\ cols st = [0; 1; 2]%nat
       /\ xray_step (Demo.ext Demo.axis11) 2 [[3; 0]; [2; 0]; [1; 0]] st = inl AssertionError.
Proof.
  split; [vm_compute; reflexivity|].
  eexists. split; [vm_compute; reflexivity|].
  split; vm_compute; reflexivity.
Qed.

(** C9 (amended).  For every rank the loop terminates.  Each iteration
    either aborts the run (duplicate-pick assertion, or argmax of an empty
    score array) or appends exactly one column; nothing else ends the loop.
    When no iteration aborts, which needs at least as many columns in the
    working matrix as the rank, the loop ends after exactly [r] iterations
    with [r] selected columns and the final residual. *)
Theorem xray_loop_iterations (ext : Extern) (npix : nat) (x : matrix) (r : Z) :
  (forall st st',
      xray_step ext npix x st = inr st' -> length (cols st') = S (length (cols st)))
  /\ (forall st e,
        xray_step ext npix x st = inl e -> e = ValueError \/ e = AssertionError)
  /\ exists res,
       xray ext npix x r = Some res
       /\ match res with
          | inl e => e = ValueError \/ e = AssertionError
          | inr (n, st) =>
              Z.of_nat n = Z.max r 0
              /\ length (cols st) = n
              /\ (r <= Z.of_nat (length x))%Z
          end.
Proof.
  split; [|split].
  - intros st st' H. apply xray_step_fresh in H. destruct H as [b [Hc _]].
    rewrite Hc, length_app. simpl. lia.
  - apply xray_step_error.
  - destruct (xray_terminates ext npix x r) as [res H]. exists res. split; [exact H|].
    destruct res as [e|[n st]].
    + unfold xray in H. eapply xray_loop_error; eauto.
    + pose proof (xray_needs_columns _ _ _ _ _ _ H) as Hneed.
      unfold xray in H. apply xray_loop_spec in H; [| constructor | constructor].
      destruct H as [_ [_ [Hlen Hn]]]. simpl in Hlen, Hn.
      repeat split; auto; lia.
Qed.

(** * Further properties *)

(** ** Sorting and the percentile *)

Lemma insert_sorted_perm v l : Permutation (v :: l) (insert_sorted v l).
Proof.
  induction l as [|h t IH]; simpl; auto.
  destruct (Qle_bool v h); auto.
  eapply perm_trans; [apply perm_swap | apply perm_skip; exact IH].
Qed.

Lemma np_sort_perm l : Permutation l (np_sort l).
Proof.
  induction l as [|a l IH]; simpl; auto.
  eapply perm_trans; [apply perm_skip; exact IH | apply insert_sorted_perm].
Qed.

Lemma insert_sorted_sorted v l :
  StronglySorted Qle l -> StronglySorted Qle (insert_sorted v l).
Proof.
  induction 1 as [|h t Ht IH Hh]; simpl.
  - repeat constructor.
  - destruct (Qle_bool v h) eqn:E.
    + apply Qle_bool_iff in E. constructor; [constructor; auto|].
      constructor; auto.
      eapply Forall_impl; [|exact Hh]. intros x Hx. eapply Qle_trans; eauto.
    + constructor; auto.
      assert (Hhv : h <= v).
      { apply Qlt_le_weak, Qltb_true. unfold Qltb. rewrite E. reflexivity. }
      apply Forall_forall. intros x Hx.
      apply (Permutation_in _ (Permutation_sym (insert_sorted_perm v t))) in Hx.
      destruct Hx as [<-|Hx]; auto.
      rewrite Forall_forall in Hh. auto.
Qed.

Lemma np_sort_sorted l : StronglySorted Qle (np_sort l).
Proof.
  induction l as [|a l IH]; simpl; [constructor | apply insert_sorted_sorted; auto].
Qed.

Lemma sorted_nth s :
  StronglySorted Qle s ->
  forall i j, (i <= j < length s)%nat -> nth i s 0 <= nth j s 0.
Proof.
  induction 1 as [|h t Ht IH Hh]; intros i j Hij; simpl in Hij; [lia|].
  destruct i as [|i], j as [|j]; simpl; try lia.
  - apply Qle_refl.
  - rewrite Forall_forall in Hh. apply Hh. apply nth_In. lia.
  - apply IH. lia.
Qed.

Lemma np_sort_length l : length (np_sort l) = length l.
Proof. symmetry. apply Permutation_length, np_sort_perm. Qed.

Lemma percentile_index_bounds (q : Q) (m : nat) :
  0 <= q -> q <= 100 ->
  let idx := (q / 100) * inject_Z (Z.of_nat m) in
  (Z.to_nat (Qfloor idx) <= m)%nat.
Proof.
  intros Hq0 Hq1 idx.
  assert (Hf0 : 0 <= q / 100) by (apply Qle_shift_div_l; lra).
  assert (Hf1 : q / 100 <= 1) by (apply Qle_shift_div_r; lra).
  assert (Hm : 0 <= inject_Z (Z.of_nat m)).
  { change 0 with (inject_Z 0). rewrite <- Zle_Qle. lia. }
  assert (Hidx : idx <= inject_Z (Z.of_nat m)).
  { unfold idx. rewrite <- (Qmult_1_l (inject_Z (Z.of_nat m))) at 2.
    apply Qmult_le_compat_r; auto. }
  apply Qfloor_resp_le in Hidx. rewrite Qfloor_Z in Hidx. lia.
Qed.

(** X1.  For a percentage between 0 and 100, [np.percentile] of a non-empty
    array lies between two values of the array (so between its minimum and
    its maximum); an empty array is rejected. *)
Theorem np_percentile_between (img : vec) (q perc : Q) :
  0 <= q -> q <= 100 ->
  np_percentile img q = inr perc ->
  exists a b, In a img /\ In b img /\ a <= perc /\ perc <= b.
Proof.
  intros Hq0 Hq1 H. destruct img as [|v img]; [discriminate|].
  set (l := v :: img) in *. set (s := np_sort l).
  set (m := (length l - 1)%nat).
  set (idx := q / 100 * inject_Z (Z.of_nat m)).
  set (lo := Z.to_nat (Qfloor idx)).
  set (hi := Nat.min (S lo) m).
  assert (E : np_percentile l q
              = inr (nth lo s 0 + (nth hi s 0 - nth lo s 0) * (idx - inject_Z (Qfloor idx))))
    by reflexivity.
  assert (Hperc : perc = nth lo s 0 + (nth hi s 0 - nth lo s 0) * (idx - inject_Z (Qfloor idx)))
    by congruence.
  clear E H. subst perc.
  assert (Hlen : length s = S m).
  { unfold s, m. rewrite np_sort_length. unfold l. simpl. lia. }
  assert (Hlo : (lo <= m)%nat) by (apply percentile_index_bounds; auto).
  assert (Hhi : (lo <= hi <= m)%nat) by (unfold hi; lia).
  assert (Hord : nth lo s 0 <= nth hi s 0).
  { apply sorted_nth; [apply np_sort_sorted | lia]. }
  destruct (floor_fraction idx) as [Hg0 Hg1].
  assert (Hin : forall k, (k <= m)%nat -> In (nth k s 0) l).
  { intros k Hk. apply (Permutation_in _ (Permutation_sym (np_sort_perm l))).
    apply nth_In. fold s. lia. }
  exists (nth lo s 0), (nth hi s 0).
  split; [apply Hin; lia|]. split; [apply Hin; lia|].
  set (g := idx - inject_Z (Qfloor idx)) in *.
  assert (Hd : 0 <= nth hi s 0 - nth lo s 0) by lra.
  pose proof (Qmult_le_0_compat _ _ Hd Hg0) as Hp0.
  assert (Hp1 : (nth hi s 0 - nth lo s 0) * g <= (nth hi s 0 - nth lo s 0) * 1).
  { rewrite (Qmult_comm _ g), (Qmult_comm _ 1). apply Qmult_le_compat_r; auto. }
  split; lra.
Qed.

Lemma np_percentile_between_witness :
  exists a b, In a [3; 1; 2] /\ In b [3; 1; 2] /\ a <= 2.98 /\ 2.98 <= b.
Proof.
  apply (np_percentile_between [3; 1; 2] 99 2.98).
  - vm_compute. discriminate.
  - vm_compute. discriminate.
  - vm_compute. reflexivity.
Defined.

(** ** The cleaning of [get_mz_images] *)

Lemma clamp_neg_idempotent img : clamp_neg (clamp_neg img) = clamp_neg img.
Proof.
  unfold clamp_neg. rewrite map_map. apply map_ext. intros v.
  destruct (Qltb v 0) eqn:E; [reflexivity|]. rewrite E. reflexivity.
Qed.

Lemma nth_clamp_neg img k :
  (k < length img)%nat ->
  nth k (clamp_neg img) 0 = if Qltb (nth k img 0) 0 then 0 else nth k img 0.
Proof.
  intros Hk. unfold clamp_neg.
  rewrite (nth_indep _ 0 ((fun v => if Qltb v 0 then 0 else v) 0))
    by (rewrite length_map; auto).
  rewrite (map_nth (fun v => if Qltb v 0 then 0 else v) img 0 k). reflexivity.
Qed.

(** X2.  The cleaning of one fetched image fails exactly on an image
    without pixels.  Otherwise it keeps the number of pixels, every cleaned
    pixel lies between 0 and the 99th percentile of the clamped image, and a
    pixel that already lay in that range is left as it was. *)
Theorem clean_image_spec (img : vec) :
  (clean_image img = inl IndexError <-> img = [])
  /\ (img <> [] ->
      exists cleaned perc,
        clean_image img = inr cleaned
        /\ np_percentile (clamp_neg img) 99 = inr perc
        /\ 0 <= perc
        /\ length cleaned = length img
        /\ forall k, (k < length img)%nat ->
             0 <= nth k cleaned 0 /\ nth k cleaned 0 <= perc
             /\ (0 <= nth k img 0 -> nth k img 0 <= perc -> nth k cleaned 0 = nth k img 0)).
Proof.
  split.
  - split.
    + intros H. destruct img as [|v img]; auto.
      unfold clean_image, np_percentile in H. simpl in H. discriminate.
    + intros ->. reflexivity.
  - intros Hne.
    destruct (clean_image img) as [e|cleaned] eqn:Ec.
    { apply clean_image_error in Ec as He. subst e.
      destruct img as [|v img]; [congruence|].
      unfold clean_image, np_percentile in Ec. simpl in Ec. discriminate. }
    unfold clean_image in Ec.
    destruct (np_percentile (clamp_neg img) 99) as [e|perc] eqn:Ep; simpl in Ec;
      [discriminate|].
    exists cleaned, perc. split; auto. split; auto.
    assert (Hperc : 0 <= perc).
    { eapply np_percentile_nonneg; [apply clamp_neg_nonneg | exact Ep]. }
    split; auto.
    assert (Hc : clean_image img = inr cleaned).
    { unfold clean_image. rewrite Ep. simpl. exact Ec. }
    split; [eapply clean_image_length; eauto|].
    intros k Hk.
    destruct (clean_image_le_orig img cleaned k Hc Hk) as [perc' [Ep' [Hn Hle]]].
    unfold clean_orig in Ep', Hn, Hle. rewrite Ep in Ep'. inversion Ep'; subst perc'.
    pose proof (clean_image_nonneg img cleaned Hc) as Hnn.
    split; [apply Forall_nth_default; [apply Qle_refl | exact Hnn]|].
    split.
    + rewrite Hn. destruct (Qltb perc (nth k (clamp_neg img) 0)) eqn:E; [apply Qle_refl|].
      apply Qltb_false in E. exact E.
    + intros H0 H1. rewrite Hn, nth_clamp_neg by auto.
      assert (E0 : Qltb (nth k img 0) 0 = false) by (apply Qltb_false; auto).
      rewrite E0.
      assert (E1 : Qltb perc (nth k img 0) = false) by (apply Qltb_false; auto).
      rewrite E1. reflexivity.
Qed.

(** X3.  Clamping negatives twice changes nothing, so cleaning the image of
    the noise pass the way [get_mz_images] does gives the image
    [get_mz_images] computes from the raw one. *)
Theorem clean_image_of_clean_orig (raw : vec) :
  clean_orig (clean_orig raw) = clean_orig raw
  /\ clean_image (clean_orig raw) = clean_image raw.
Proof.
  unfold clean_orig, clean_image. rewrite clamp_neg_idempotent. split; reflexivity.
Qed.

(** ** Chunks of the axis and the chunked array *)

Lemma partition_go_full {A : Type} n (l : list A) : forall acc i,
  (length acc < n)%nat ->
  (S i < length (partition_go n acc l))%nat ->
  length (nth i (partition_go n acc l) []) = n.
Proof.
  induction l as [|a l IH]; intros acc i Hacc Hi.
  - simpl in *. destruct acc; simpl in Hi; lia.
  - cbn [partition_go] in *.
    destruct (Nat.eqb (length (a :: acc)) n) eqn:E.
    + apply Nat.eqb_eq in E. destruct i as [|i].
      * cbn [nth]. rewrite length_rev. exact E.
      * cbn [nth]. apply IH; [simpl in *; lia|]. cbn [length] in Hi. lia.
    + apply Nat.eqb_neq in E. apply IH; auto. simpl in *. lia.
Qed.

Lemma concat_length_bounds {A : Type} n (chunks : list (list A)) :
  (0 < n)%nat ->
  Forall (fun c => (0 < length c <= n)%nat) chunks ->
  (forall i, (S i < length chunks)%nat -> length (nth i chunks []) = n) ->
  (length (concat chunks) <= n * length chunks)%nat
  /\ (n * length chunks < length (concat chunks) + n)%nat.
Proof.
  intros Hn Hsz. induction Hsz as [|c cs Hc Hcs IH]; intros Hfull; simpl.
  - lia.
  - rewrite length_app. destruct cs as [|c' cs'].
    + simpl. lia.
    + assert (Hcn : length c = n) by (apply (Hfull 0%nat); simpl; lia).
      destruct IH as [IH1 IH2].
      { intros i Hi. apply (Hfull (S i)). simpl in *. lia. }
      cbn [length] in *. nia.
Qed.

Lemma list_sum_lengths {A : Type} (chunks : list (list A)) :
  list_sum (map (fun c => length c) chunks) = length (concat chunks).
Proof.
  induction chunks as [|c cs IH]; simpl; auto. rewrite length_app, IH. reflexivity.
Qed.

(** X4.  The chunk sizes handed to the dask array add up to the number of
    bins; every chunk holds between 1 and 100 bins and every chunk but the
    last holds exactly 100, so there are ceil(bins / 100) chunks. *)
Theorem chunks_mz_spec (mz_axis : list (Q * Q)) :
  let sizes := chunks_mz mz_axis in
  list_sum sizes = length mz_axis
  /\ Forall (fun c => (0 < c <= 100)%nat) sizes
  /\ (forall i, (S i < length sizes)%nat -> nth i sizes 0%nat = 100%nat)
  /\ (length mz_axis <= 100 * length sizes)%nat
  /\ (100 * length sizes < length mz_axis + 100)%nat.
Proof.
  unfold chunks_mz, mz_axis_chunks, K. cbn zeta.
  set (chunks := partition_all 100 mz_axis).
  assert (Hsz : Forall (fun c : list (Q * Q) => (0 < length c <= 100)%nat) chunks)
    by (apply partition_go_sizes; simpl; lia).
  assert (Hfull : forall i, (S i < length chunks)%nat -> length (nth i chunks []) = 100%nat)
    by (intros i Hi; apply partition_go_full; [simpl; lia | exact Hi]).
  assert (Hcat : concat chunks = mz_axis) by apply partition_all_concat.
  split; [rewrite list_sum_lengths, Hcat; reflexivity|].
  split; [rewrite Forall_map; exact Hsz|].
  split.
  - intros i Hi. rewrite length_map in Hi.
    rewrite (nth_indep _ 0%nat (length (@nil (Q * Q)))) by (rewrite length_map; lia).
    rewrite (map_nth (fun c : list (Q * Q) => length c) chunks [] i). auto.
  - rewrite length_map, <- Hcat.
    apply (concat_length_bounds 100 chunks); auto. lia.
Qed.

(** X5.  Computing the dask array chunk by chunk gives the same result as
    cleaning the images of the whole axis in one go, failures included; when
    it succeeds the array holds, for every bin in axis order, the cleaned
    image of that bin. *)
Theorem compute_arr_spec (imzb : Imzb) (mz_axis : list (Q * Q)) :
  compute_arr imzb mz_axis = get_mz_images imzb mz_axis
  /\ forall arr,
       compute_arr imzb mz_axis = inr arr ->
       length arr = length mz_axis
       /\ forall i bin,
            nth_error mz_axis i = Some bin ->
            exists img,
              nth_error arr i = Some img
              /\ clean_image (get_mz_image imzb (fst bin) (snd bin)) = inr img.
Proof.
  split; [apply compute_arr_eq|].
  intros arr H. rewrite compute_arr_eq in H. unfold get_mz_images in H.
  apply mapM_Forall2 in H.
  split; [symmetry; eapply Forall2_length; eauto|].
  induction H as [|bin0 img0 axis' arr' H0 Hrest IH]; intros i bin Hi.
  - destruct i; discriminate.
  - destruct i as [|i]; simpl in *.
    + inversion Hi; subst. exists img0; auto.
    + apply IH; auto.
Qed.

(** ** Which column an iteration picks *)

Lemma fgt_le_lt (a b c : fval) : fgt a b = false -> fgt c b = true -> fgt c a = true.
Proof.
  destruct a as [| |x|], b as [| |y|], c as [| |z|]; simpl; intros H1 H2;
    try discriminate; try reflexivity.
  apply Qltb_false in H1. apply Qltb_true in H2. apply Qltb_true. lra.
Qed.

Lemma fgt_trans (a b c : fval) : fgt a b = true -> fgt b c = true -> fgt a c = true.
Proof.
  destruct a as [| |x|], b as [| |y|], c as [| |z|]; simpl; intros H1 H2;
    try discriminate; try reflexivity.
  apply Qltb_true in H1. apply Qltb_true in H2. apply Qltb_true. lra.
Qed.

Lemma fgt_NaN_top (a : fval) : fgt NaN a = false -> a = NaN.
Proof. destruct a; simpl; auto; discriminate. Qed.

Lemma argmax_from_first l : forall best bv i d,
  (best < i)%nat ->
  let b := argmax_from best bv i l in
  b <> best ->
  fgt (nth (b - i) l d) bv = true
  /\ forall k, (k < b - i)%nat -> fgt (nth (b - i) l d) (nth k l d) = true.
Proof.
  induction l as [|v t IH]; intros best bv i d Hb; cbn zeta.
  - simpl. congruence.
  - cbn [argmax_from]. destruct (fgt v bv) eqn:E.
    + destruct (argmax_from_spec t i v (S i) d ltac:(lia)) as [Hrange _].
      specialize (IH i v (S i) d ltac:(lia)). cbn zeta in IH.
      set (b := argmax_from i v (S i) t) in *. intros _.
      destruct (Nat.eq_dec b i) as [Ebi|Ebi].
      * rewrite Ebi, Nat.sub_diag. simpl. split; auto. intros k Hk. lia.
      * destruct (IH Ebi) as [Hv Hall].
        replace (b - i)%nat with (S (b - S i)) by lia. cbn [nth]. split.
        -- eapply fgt_trans; eauto.
        -- intros [|k] Hk; [exact Hv | apply Hall; lia].
    + destruct (argmax_from_spec t best bv (S i) d ltac:(lia)) as [Hrange _].
      specialize (IH best bv (S i) d ltac:(lia)). cbn zeta in IH.
      set (b := argmax_from best bv (S i) t) in *. intros Hne.
      destruct (IH Hne) as [Hv Hall].
      replace (b - i)%nat with (S (b - S i)) by lia. cbn [nth]. split; auto.
      intros [|k] Hk; [| apply Hall; lia].
      eapply fgt_le_lt; eauto.
Qed.

Lemma np_argmax_first l b d :
  np_argmax l = inr b ->
  forall k, (k < b)%nat -> fgt (nth b l d) (nth k l d) = true.
Proof.
  destruct l as [|v t]; simpl; [discriminate|]. intros H; inversion H; clear H.
  intros k Hk.
  pose proof (argmax_from_first t 0%nat v 1%nat d ltac:(lia)) as Hf. cbn zeta in Hf.
  set (b0 := argmax_from 0 v 1 t) in *.
  destruct Hf as [Hv Hall]; [lia|].
  destruct b0 as [|b0]; [lia|]. simpl in Hv, Hall. rewrite Nat.sub_0_r in Hv, Hall.
  cbn [nth]. destruct k as [|k]; [exact Hv | apply Hall; lia].
Qed.

(** X6.  The column an iteration appends is a position of the masked score
    array where the score is maximal in the order of [np.argmax] (NaN above
    everything), and the first such position: every earlier column scores
    strictly less. *)
Theorem xray_pick_is_first_maximum (ext : Extern) (npix : nat) (x : matrix)
    (st st' : xray_state) :
  xray_step ext npix x st = inr st' ->
  let scores :=
    mask_selected (cols st)
      (raw_scores (random_random ext (length (cols st)) npix) (R st) x) in
  exists b,
    cols st' = cols st ++ [b]
    /\ (b < length scores)%nat
    /\ (forall k, (k < length scores)%nat -> fle (nth k scores NaN) (nth b scores NaN))
    /\ (forall k, (k < b)%nat -> fgt (nth b scores NaN) (nth k scores NaN) = true)
    /\ (In NaN scores -> nth b scores NaN = NaN).
Proof.
  intros H scores. apply xray_step_inv in H. destruct H as [b [Ha [_ Hc]]].
  fold scores in Ha. exists b. split; auto.
  destruct (np_argmax_spec scores b NaN Ha) as [Hb Hmax].
  split; auto. split; [exact Hmax|]. split; [apply np_argmax_first; auto|].
  intros Hin. apply (In_nth _ _ NaN) in Hin. destruct Hin as [k [Hk Ek]].
  specialize (Hmax k Hk). rewrite Ek in Hmax. apply fgt_NaN_top in Hmax. exact Hmax.
Qed.

Lemma xray_pick_is_first_maximum_witness :
  exists st' b,
    xray_step (Demo.ext Demo.axis11) 2 [[1; 0]; [3; 0]; [3; 0]]
      {| cols := []; R := [[1; 0]; [3; 0]; [3; 0]] |} = inr st'
    /\ cols st' = [] ++ [b]
    /\ cols st' = [1%nat].
Proof.
  eexists.
  assert (H : xray_step (Demo.ext Demo.axis11) 2 [[1; 0]; [3; 0]; [3; 0]]
                {| cols := []; R := [[1; 0]; [3; 0]; [3; 0]] |} = inr _)
    by (vm_compute; reflexivity).
  destruct (xray_pick_is_first_maximum _ _ _ _ _ H) as [b [Hc _]].
  exists b. split; [exact H|]. split; [exact Hc | reflexivity].
Defined.

Lemma dot_zero_r u v : Forall (fun a => a == 0) v -> dot u v == 0.
Proof.
  intros Hv; revert u. induction Hv as [|b v Hb Hv IH]; intros [|a u]; simpl;
    try reflexivity.
  rewrite Hb, IH. ring.
Qed.

Lemma dot_zero_l u v : Forall (fun a => a == 0) u -> dot u v == 0.
Proof.
  intros Hu; revert v. induction Hu as [|a u Ha Hu IH]; intros [|b v]; simpl;
    try reflexivity.
  rewrite Ha, IH. ring.
Qed.

(** X7.  If the working matrix has a column that is entirely zero, its first
    score is 0/0 = NaN, which [np.argmax] ranks above every number: the
    first iteration succeeds and picks that column or an earlier one whose
    score is NaN as well, whatever the other columns hold. *)
Theorem zero_column_picked_first (ext : Extern) (npix : nat) (x : matrix) (j : nat) :
  (j < length x)%nat ->
  Forall (fun v => v == 0) (nth j x []) ->
  exists st' b,
    xray_step ext npix x {| cols := []; R := x |} = inr st'
    /\ cols st' = [b]
    /\ (b <= j)%nat
    /\ nth b (raw_scores (random_random ext 0 npix) x x) (Fin 0) = NaN.
Proof.
  intros Hj Hz.
  set (scores := raw_scores (random_random ext 0 npix) x x).
  assert (Hlen : length scores = length x).
  { unfold scores, raw_scores. rewrite map2_length. apply Nat.min_id. }
  assert (Hsj : forall d, nth j scores d = NaN).
  { intros d. unfold scores, raw_scores.
    rewrite (nth_map2 _ x x j [] [] d) by auto.
    unfold fdiv.
    assert (E1 : Qeq_bool (dot (random_random ext 0 npix) (nth j x [])) 0 = true)
      by (apply Qeq_bool_iff, dot_zero_r; auto).
    assert (E2 : Qeq_bool (dot (nth j x []) (nth j x [])) 0 = true)
      by (apply Qeq_bool_iff, dot_zero_r; auto).
    rewrite E1, E2. reflexivity. }
  destruct (xray_step_succeeds ext npix x {| cols := []; R := x |} j) as [st' Hs].
  - simpl. fold scores. lia.
  - reflexivity.
  - simpl. fold scores. rewrite Hsj. reflexivity.
  - destruct (xray_step_inv _ _ _ _ _ Hs) as [b [Ha [_ Hc]]].
    simpl in Ha, Hc. fold scores in Ha.
    exists st', b. split; auto. split; auto.
    destruct (np_argmax_spec scores b NaN Ha) as [Hb Hmax].
    pose proof (Hmax j ltac:(lia)) as Hjb. rewrite Hsj in Hjb.
    apply fgt_NaN_top in Hjb.
    split.
    + destruct (Nat.le_gt_cases b j) as [Hle|Hgt]; auto.
      pose proof (np_argmax_first scores b NaN Ha j Hgt) as Hf.
      rewrite Hsj in Hf. destruct (nth b scores NaN); discriminate.
    + rewrite (nth_indep _ (Fin 0) NaN) by lia. exact Hjb.
Qed.

Lemma zero_column_picked_first_witness :
  exists st' b,
    xray_step (Demo.ext Demo.axis11) 2 [[3; 0]; [0; 0]; [2; 0]]
      {| cols := []; R := [[3; 0]; [0; 0]; [2; 0]] |} = inr st'
    /\ cols st' = [b] /\ (b <= 1)%nat.
Proof.
  destruct (zero_column_picked_first (Demo.ext Demo.axis11) 2 [[3; 0]; [0; 0]; [2; 0]] 1)
    as [st' [b [H1 [H2 [H3 _]]]]].
  - simpl. lia.
  - simpl. repeat constructor; reflexivity.
  - exists st', b. split; [exact H1 | split; [exact H2 | exact H3]].
Defined.

(** ** Whole runs *)

Lemma demo_insert_index_perm v i l : Permutation (i :: l) (Demo.insert_index v i l).
Proof.
  induction l as [|j t IH]; simpl; auto.
  destruct (Qle_bool (nth i v 0) (nth j v 0)); auto.
  eapply perm_trans; [apply perm_swap | apply perm_skip; exact IH].
Qed.

Lemma demo_argsort_permutes axis : argsort_permutes (Demo.ext axis).
Proof.
  intros v. simpl. unfold Demo.argsort.
  generalize (seq 0 (length v)). intros l.
  induction l as [|i l IH]; simpl; auto.
  apply Permutation_sym.
  eapply perm_trans; [apply perm_skip, Permutation_sym, IH | apply demo_insert_index_perm].
Qed.

(** Everything a run that saved an archive went through. *)
Lemma pipeline_inv_full ext args a :
  pipeline ext args = Some (inr a) ->
  let imzb := ImzbReader ext (input args) in
  let mz_axis :=
    generate_mz_axis ext (min_mz imzb - (1 # 10)) (max_mz imzb + (1 # 10)) args 1 in
  exists arr n st acc,
    let x := select_cols arr
               (firstn N_bright (rev (np_argsort ext (map vsum arr)))) in
    0 < min_mz imzb - (1 # 10)
    /\ 1 < max_mz imzb + (1 # 10)
    /\ compute_arr imzb mz_axis = inr arr
    /\ xray ext (height imzb * width imzb) x (rank args) = Some (inr (n, st))
    /\ noise_pass ext imzb (saved_W a) (saved_H a) mz_axis = inr acc
    /\ a = {| saved_W := select_cols x (cols st);
              saved_H := nnls_frob ext arr (select_cols x (cols st));
              saved_mz_axis := mz_axis;
              saved_shape := (height imzb, width imzb);
              saved_noise_prob := prob acc;
              saved_noise_sqrt_avg := sqrt_median acc;
              saved_noise_sqrt_std := sqrt_std acc;
              saved_min_intensities := min_intensities acc |}.
Proof.
  unfold pipeline. cbn zeta. cbn [fst snd]. intros H.
  destruct (Qltb 0 _) eqn:E1; simpl in H; [|inversion H].
  destruct (Qltb 1 _) eqn:E2; simpl in H; [|inversion H].
  destruct (da_Array _) as [e|[]] eqn:Eda; simpl in H; [inversion H|].
  destruct (compute_arr _ _) as [e|arr] eqn:Earr; simpl in H; [inversion H|].
  destruct (xray _ _ _ _) as [[e|[n st]]|] eqn:Ex; [inversion H| |discriminate].
  destruct (noise_pass _ _ _ _ _) as [e|acc] eqn:En; simpl in H; [inversion H|].
  inversion H; subst; clear H. simpl.
  exists arr, n, st, acc.
  apply Qltb_true in E1. apply Qltb_true in E2.
  repeat split; auto.
Qed.

(** X8.  When the rank check passes but the mass range of the dataset,
    widened by 0.1, does not start above 0 or does not end above 1, the run
    stops on an assertion right after opening the input: nothing is
    saved. *)
Theorem mz_range_assertion (ext : Extern) (args : Args) :
  (10 <= rank args)%Z ->
  min_mz (ImzbReader ext (input args)) <= 1 # 10
  \/ max_mz (ImzbReader ext (input args)) <= 9 # 10 ->
  main ext args = Some ([OpenInput (input args)], inl AssertionError).
Proof.
  intros Hr Hm. unfold main. apply Z.ltb_ge in Hr. rewrite Hr.
  unfold pipeline. cbn zeta. cbn [fst snd].
  destruct (Qltb 0 _) eqn:E1; simpl; [|reflexivity].
  destruct (Qltb 1 _) eqn:E2; simpl; [|reflexivity].
  apply Qltb_true in E1. apply Qltb_true in E2.
  destruct Hm; lra.
Qed.

Lemma mz_range_assertion_witness :
  main {| ImzbReader := fun _ => {| min_mz := 1 # 20; max_mz := 50; height := 1; width := 2;
                                     get_mz_image := fun _ _ => [1; 2] |};
          generate_mz_axis := fun _ _ _ _ => Demo.axis11;
          nnlsm_blockpivot := Demo.solver;
          random_random := fun _ n => repeat (1 # 2) n;
          np_argsort := Demo.argsort;
          np_sqrt := Demo.sqrt; np_median := Demo.median; np_std := Demo.std |}
       (Demo.args 10)
  = Some ([OpenInput "in.imzb"], inl AssertionError).
Proof.
  apply mz_range_assertion.
  - simpl. lia.
  - left. simpl. vm_compute. discriminate.
Defined.

Lemma da_Array_nonempty mz_axis : mz_axis <> [] -> da_Array (chunks_mz mz_axis) = inr tt.
Proof.
  intros Hne. unfold chunks_mz, mz_axis_chunks.
  destruct (partition_all K mz_axis) as [|c cs] eqn:E; [|reflexivity].
  pose proof (partition_all_concat K mz_axis) as Hc. rewrite E in Hc. simpl in Hc.
  congruence.
Qed.

Lemma da_Array_ok mz_axis : da_Array (chunks_mz mz_axis) = inr tt -> mz_axis <> [].
Proof.
  intros H ->. discriminate.
Qed.

(** X9.  When the axis generator returns no bin at all, the tuple of chunk
    sizes is empty and the dask array cannot be built: the run ends with a
    [ValueError] right there, before any image is fetched and before the
    selection loop, and nothing is saved.  Conversely the axis of every
    saved archive has at least one bin. *)
Theorem empty_axis_value_error (ext : Extern) (args : Args) :
  let imzb := ImzbReader ext (input args) in
  let mz_axis :=
    generate_mz_axis ext (min_mz imzb - (1 # 10)) (max_mz imzb + (1 # 10)) args 1 in
  (mz_axis = [] <-> da_Array (chunks_mz mz_axis) = inl ValueError)
  /\ ((10 <= rank args)%Z -> 1 # 10 < min_mz imzb -> 9 # 10 < max_mz imzb ->
      mz_axis = [] ->
      main ext args = Some ([OpenInput (input args)], inl ValueError))
  /\ (forall t res path a,
        main ext args = Some (t, res) -> In (SaveArchive path a) t ->
        saved_mz_axis a = mz_axis /\ mz_axis <> []).
Proof.
  intros imzb mz_axis. split; [|split].
  - split.
    + intros ->. reflexivity.
    + intros H. destruct mz_axis as [|b l] eqn:E; auto.
      rewrite da_Array_nonempty in H by discriminate. discriminate.
  - intros Hr Hmin Hmax Haxis. unfold main.
    assert (Hr' : (rank args <? 10)%Z = false) by (apply Z.ltb_ge; auto). rewrite Hr'.
    unfold pipeline. cbn zeta. fold imzb. cbn [fst snd]. fold mz_axis.
    assert (E1 : Qltb 0 (min_mz imzb - (1 # 10)) = true) by (apply Qltb_true; lra).
    assert (E2 : Qltb 1 (max_mz imzb + (1 # 10)) = true) by (apply Qltb_true; lra).
    rewrite E1, E2, Haxis. reflexivity.
  - intros t res path a Hm Hin.
    destruct (main_saved _ _ _ _ _ _ Hm Hin) as [Hp _].
    unfold pipeline in Hp. cbn zeta in Hp. fold imzb in Hp. cbn [fst snd] in Hp.
    fold mz_axis in Hp.
    destruct (Qltb 0 _); simpl in Hp; [|discriminate].
    destruct (Qltb 1 _); simpl in Hp; [|discriminate].
    destruct (da_Array (chunks_mz mz_axis)) as [e|[]] eqn:Eda; simpl in Hp; [discriminate|].
    apply da_Array_ok in Eda.
    destruct (compute_arr _ _) as [e|arr]; simpl in Hp; [discriminate|].
    destruct (xray _ _ _ _) as [[e|[n st]]|]; [discriminate| |discriminate].
    destruct (noise_pass _ _ _ _ _) as [e|acc]; simpl in Hp; [discriminate|].
    inversion Hp; subst a. simpl. auto.
Qed.

Lemma empty_axis_value_error_witness :
  main (Demo.ext []) (Demo.args 10) = Some ([OpenInput "in.imzb"], inl ValueError).
Proof.
  apply (proj1 (proj2 (empty_axis_value_error (Demo.ext []) (Demo.args 10)))).
  - simpl. lia.
  - vm_compute. reflexivity.
  - vm_compute. reflexivity.
  - reflexivity.
Defined.

Lemma select_cols_length x cols : length (select_cols x cols) = length cols.
Proof. apply length_map. Qed.

Lemma nth_select_cols x cols j :
  (j < length cols)%nat -> nth j (select_cols x cols) [] = nth (nth j cols 0%nat) x [].
Proof.
  intros Hj. unfold select_cols.
  rewrite (nth_indep _ [] ((fun k => nth k x []) 0%nat)) by (rewrite length_map; auto).
  apply (map_nth (fun k => nth k x [])).
Qed.

Lemma In_firstn {A : Type} n (l : list A) a : In a (firstn n l) -> In a l.
Proof.
  intros H. rewrite <- (firstn_skipn n l). apply in_or_app. auto.
Qed.

Lemma compute_arr_length imzb mz_axis arr :
  compute_arr imzb mz_axis = inr arr -> length arr = length mz_axis.
Proof.
  rewrite compute_arr_eq. unfold get_mz_images. intros H.
  apply mapM_Forall2 in H. symmetry. eapply Forall2_length; eauto.
Qed.

(** Position [i] of the array holds the cleaned image of bin [i]. *)
Lemma compute_arr_nth imzb mz_axis arr i :
  compute_arr imzb mz_axis = inr arr ->
  (i < length arr)%nat ->
  exists bin,
    nth_error mz_axis i = Some bin
    /\ clean_image (get_mz_image imzb (fst bin) (snd bin)) = inr (nth i arr []).
Proof.
  rewrite compute_arr_eq. unfold get_mz_images. intros H.
  apply mapM_Forall2 in H. revert i.
  induction H as [|bin0 img0 axis' arr' H0 Hrest IH]; intros i Hi; simpl in Hi; [lia|].
  destruct i as [|i]; simpl.
  - exists bin0; auto.
  - apply IH. lia.
Qed.

(** With an [argsort] that permutes positions, the working matrix is made
    of columns of the array. *)
Lemma bright_columns ext arr j :
  argsort_permutes ext ->
  let x := select_cols arr (firstn N_bright (rev (np_argsort ext (map vsum arr)))) in
  (j < length x)%nat ->
  exists i, (i < length arr)%nat /\ nth j x [] = nth i arr [].
Proof.
  intros Hsort x Hj. unfold x in *. rewrite select_cols_length in Hj.
  rewrite nth_select_cols by auto.
  set (bright := firstn N_bright (rev (np_argsort ext (map vsum arr)))) in *.
  exists (nth j bright 0%nat). split; auto.
  assert (Hin : In (nth j bright 0%nat) bright) by (apply nth_In; auto).
  generalize dependent (nth j bright 0%nat). intros i Hin.
  unfold bright in Hin. apply In_firstn in Hin. apply in_rev in Hin.
  apply (Permutation_in _ (Hsort (map vsum arr))) in Hin.
  apply in_seq in Hin. rewrite length_map in Hin. lia.
Qed.

Lemma bright_length ext arr :
  let x := select_cols arr (firstn N_bright (rev (np_argsort ext (map vsum arr)))) in
  (length x <= N_bright)%nat
  /\ (argsort_permutes ext -> length x <= length arr)%nat.
Proof.
  intros x. unfold x. rewrite select_cols_length, length_firstn, length_rev. split; [lia|].
  intros Hsort. pose proof (Permutation_length (Hsort (map vsum arr))) as Hl.
  rewrite length_seq, length_map in Hl. lia.
Qed.

(** X10.  A run can only save an archive when the requested rank is at most
    500, the size of the bright subset, and (with an [argsort] that permutes
    positions) at most the number of bins: with a larger rank every run
    aborts. *)
Theorem rank_is_capped (ext : Extern) (args : Args)
    (t : list event) (res : result unit) (path : string) (a : Archive) :
  main ext args = Some (t, res) ->
  In (SaveArchive path a) t ->
  (10 <= rank args <= 500)%Z
  /\ (argsort_permutes ext -> (rank args <= Z.of_nat (length (saved_mz_axis a)))%Z).
Proof.
  intros Hm Hin.
  destruct (main_saved _ _ _ _ _ _ Hm Hin) as [Hp [Hr _]].
  apply pipeline_inv_full in Hp. cbn zeta in Hp.
  destruct Hp as [arr [n [st [acc [_ [_ [Harr [Hx [_ Ha]]]]]]]]].
  apply xray_needs_columns in Hx.
  destruct (bright_length ext arr) as [H500 Hbins]. cbn zeta in H500, Hbins.
  set (x := select_cols arr (firstn N_bright (rev (np_argsort ext (map vsum arr))))) in *.
  unfold N_bright in H500. split; [lia|].
  intros Hsort. specialize (Hbins Hsort).
  apply compute_arr_length in Harr. rewrite Ha. simpl. lia.
Qed.

Lemma rank_is_capped_witness :
  exists a,
    main (Demo.ext Demo.axis11) (Demo.args 10)
    = Some ([OpenInput "in.imzb"; SaveArchive "out.npz" a], inr tt)
    /\ (10 <= rank (Demo.args 10) <= 500)%Z.
Proof.
  eexists. split; [vm_compute; reflexivity|].
  refine (proj1 (rank_is_capped (Demo.ext Demo.axis11) (Demo.args 10) _ _ "out.npz" _ _ _)).
  - vm_compute. reflexivity.
  - right; left; reflexivity.
Defined.

Lemma fold_update_min_length n : forall imgs mm,
  Forall (fun img => length img = n) imgs -> length mm = n ->
  length (fold_left update_min imgs mm) = n.
Proof.
  induction imgs as [|img imgs IH]; intros mm Himgs Hmm; simpl; auto.
  inversion Himgs as [|? ? Hi Hr]; subst.
  apply IH; auto. unfold update_min. rewrite map2_length. lia.
Qed.

Lemma orig_of_shape imzb mz_axis :
  reader_shape imzb ->
  Forall (fun img => length img = (height imzb * width imzb)%nat) (map (orig_of imzb) mz_axis).
Proof.
  intros Hshape. apply Forall_forall. intros img Himg. apply in_map_iff in Himg.
  destruct Himg as [b [<- _]]. unfold orig_of, clean_orig.
  rewrite clamp_neg_length. apply Hshape.
Qed.

(** X11.  The arrays of a saved archive have the shapes the file format
    promises: [W] has rank columns, [H] and the three noise arrays have one
    entry per bin of the axis, [shape] is the dataset's (height, width), and
    for a reader returning images of that shape [min_intensities] has
    height x width entries and (with an [argsort] that permutes positions)
    so does every column of [W]. *)
Theorem archive_shapes (ext : Extern) (args : Args)
    (t : list event) (res : result unit) (path : string) (a : Archive) :
  let imzb := ImzbReader ext (input args) in
  main ext args = Some (t, res) ->
  In (SaveArchive path a) t ->
  path = output args
  /\ Z.of_nat (length (saved_W a)) = rank args
  /\ length (saved_H a) = length (saved_mz_axis a)
  /\ length (saved_noise_prob a) = length (saved_mz_axis a)
  /\ length (saved_noise_sqrt_avg a) = length (saved_mz_axis a)
  /\ length (saved_noise_sqrt_std a) = length (saved_mz_axis a)
  /\ saved_shape a = (height imzb, width imzb)
  /\ (reader_shape imzb ->
      length (saved_min_intensities a) = (height imzb * width imzb)%nat
      /\ (argsort_permutes ext ->
          Forall (fun c => length c = (height imzb * width imzb)%nat) (saved_W a))).
Proof.
  intros imzb Hm Hin.
  destruct (main_saved _ _ _ _ _ _ Hm Hin) as [Hp [Hr [Hpath _]]].
  apply pipeline_inv_full in Hp. cbn zeta in Hp. fold imzb in Hp.
  destruct Hp as [arr [n [st [acc [_ [_ [Harr [Hx [Hn Ha]]]]]]]]].
  set (mz_axis := generate_mz_axis ext (min_mz imzb - (1 # 10))
                    (max_mz imzb + (1 # 10)) args 1) in *.
  set (x := select_cols arr (firstn N_bright (rev (np_argsort ext (map vsum arr))))) in *.
  unfold xray in Hx. apply xray_loop_spec in Hx; [| constructor | constructor].
  destruct Hx as [_ [Hrange [Hlen _]]]. simpl in Hlen.
  unfold noise_pass in Hn. apply noise_loop_inv in Hn. cbn zeta in Hn.
  destruct Hn as [Hp' [Hm' [Hs' [Hmin _]]]]. simpl in Hp', Hm', Hs', Hmin.
  assert (Hrec : forall (W0 H0 : matrix) (f : Q * Q * Q -> Q),
             length (map f (map (bin_record ext imzb W0 H0)
                              (combine (seq 0 (length mz_axis)) mz_axis)))
             = length mz_axis).
  { intros W0 H0 f. rewrite !length_map, length_combine, length_seq. apply Nat.min_id. }
  rewrite Ha in Hp', Hm', Hs' |- *. cbn [saved_W saved_H saved_mz_axis saved_shape
    saved_noise_prob saved_noise_sqrt_avg saved_noise_sqrt_std saved_min_intensities] in *.
  split; [exact Hpath|].
  split; [rewrite select_cols_length; lia|].
  split; [rewrite nnls_frob_length; eapply compute_arr_length; eauto|].
  split; [rewrite Hp'; apply Hrec|].
  split; [rewrite Hm'; apply Hrec|].
  split; [rewrite Hs'; apply Hrec|].
  split; [reflexivity|].
  intros Hshape. split.
  - rewrite Hmin. apply fold_update_min_length; [apply orig_of_shape; auto | apply repeat_length].
  - intros Hsort. apply Forall_forall. intros c Hc.
    unfold select_cols in Hc at 1. apply in_map_iff in Hc. destruct Hc as [j [<- Hj]].
    rewrite Forall_forall in Hrange. specialize (Hrange j Hj).
    destruct (bright_columns ext arr j Hsort Hrange) as [i [Hi Ei]].
    fold x in Ei. rewrite Ei.
    pose proof (compute_arr_shape imzb mz_axis arr Hshape Harr) as Hsh.
    rewrite Forall_forall in Hsh. apply Hsh. apply nth_In. auto.
Qed.

Lemma archive_shapes_witness :
  exists a,
    main (Demo.ext Demo.axis11) (Demo.args 10)
    = Some ([OpenInput "in.imzb"; SaveArchive "out.npz" a], inr tt)
    /\ Z.of_nat (length (saved_W a)) = 10%Z
    /\ length (saved_H a) = length (saved_mz_axis a).
Proof.
  eexists. split; [vm_compute; reflexivity|].
  refine (let H := archive_shapes (Demo.ext Demo.axis11) (Demo.args 10) _ _ "out.npz" _ _ _
          in conj (proj1 (proj2 H)) (proj1 (proj2 (proj2 H)))).
  - vm_compute. reflexivity.
  - right; left; reflexivity.
Defined.

(** X12.  With an [argsort] that permutes positions, every column of the
    saved basis [W] is an image of the dataset: the image of some bin of
    the axis, cleaned as [get_mz_images] cleans it.  The factorisation
    selects data columns, it does not synthesise new ones. *)
Theorem basis_columns_are_dataset_images (ext : Extern) (args : Args)
    (t : list event) (res : result unit) (path : string) (a : Archive) (c : vec) :
  argsort_permutes ext ->
  main ext args = Some (t, res) ->
  In (SaveArchive path a) t ->
  In c (saved_W a) ->
  exists bin,
    In bin (saved_mz_axis a)
    /\ clean_image (get_mz_image (ImzbReader ext (input args)) (fst bin) (snd bin)) = inr c.
Proof.
  intros Hsort Hm Hin Hc.
  destruct (main_saved _ _ _ _ _ _ Hm Hin) as [Hp _].
  apply pipeline_inv_full in Hp. cbn zeta in Hp.
  destruct Hp as [arr [n [st [acc [_ [_ [Harr [Hx [_ Ha]]]]]]]]].
  unfold xray in Hx. apply xray_loop_spec in Hx; [| constructor | constructor].
  destruct Hx as [_ [Hrange _]].
  rewrite Ha in Hc |- *. cbn [saved_W saved_mz_axis] in *.
  unfold select_cols in Hc at 1. apply in_map_iff in Hc. destruct Hc as [j [<- Hj]].
  rewrite Forall_forall in Hrange. specialize (Hrange j Hj).
  destruct (bright_columns ext arr j Hsort Hrange) as [i [Hi Ei]].
  rewrite Ei.
  destruct (compute_arr_nth _ _ _ i Harr Hi) as [bin [Hbin Hclean]].
  exists bin. split; auto. eapply nth_error_In; eauto.
Qed.

Lemma basis_columns_are_dataset_images_witness :
  exists a,
    main (Demo.ext Demo.axis11) (Demo.args 10)
    = Some ([OpenInput "in.imzb"; SaveArchive "out.npz" a], inr tt)
    /\ exists bin,
         In bin (saved_mz_axis a)
         /\ clean_image (get_mz_image (Demo.reader "in.imzb") (fst bin) (snd bin))
            = inr (nth 1 (saved_W a) []).
Proof.
  eexists. split; [vm_compute; reflexivity|].
  refine (basis_columns_are_dataset_images (Demo.ext Demo.axis11) (Demo.args 10)
            _ _ "out.npz" _ _ (demo_argsort_permutes Demo.axis11) _ _ _).
  - vm_compute. reflexivity.
  - right; left; reflexivity.
  - vm_compute. right; left; reflexivity.
Defined.

Lemma readings_cases (readings : vec) :
  Forall (fun o => o <= 0) readings \/ exists o, In o readings /\ 0 < o.
Proof.
  induction readings as [|o os IH]; [left; constructor|].
  destruct (Qlt_le_dec 0 o) as [Hpos|Hle].
  - right. exists o. split; [left; auto | auto].
  - destruct IH as [IH|[p [Hin Hp]]].
    + left. constructor; auto.
    + right. exists p. split; [right; auto | auto].
Qed.

(** X13.  For a reader returning images of the dataset's shape, the saved
    [min_intensities] has one entry per pixel and each entry is either
    +infinity or a strictly positive finite intensity read from some bin at
    that pixel: it is never NaN, -infinity, zero or negative. *)
Theorem min_intensities_entries (ext : Extern) (args : Args)
    (t : list event) (res : result unit) (path : string) (a : Archive) (k : nat) :
  let imzb := ImzbReader ext (input args) in
  reader_shape imzb ->
  main ext args = Some (t, res) ->
  In (SaveArchive path a) t ->
  (k < height imzb * width imzb)%nat ->
  nth_error (saved_min_intensities a) k = Some PInf
  \/ exists m bin,
       nth_error (saved_min_intensities a) k = Some (Fin m)
       /\ 0 < m
       /\ In bin (saved_mz_axis a)
       /\ nth k (orig_of imzb bin) 0 = m.
Proof.
  intros imzb Hshape Hm Hin Hk.
  destruct (main_saved _ _ _ _ _ _ Hm Hin) as [Hp _].
  apply pipeline_inv_full in Hp. cbn zeta in Hp. fold imzb in Hp.
  destruct Hp as [arr [n [st [acc [_ [_ [_ [_ [Hn Ha]]]]]]]]].
  set (mz_axis := generate_mz_axis ext (min_mz imzb - (1 # 10))
                    (max_mz imzb + (1 # 10)) args 1) in *.
  unfold noise_pass in Hn. apply noise_loop_inv in Hn. cbn zeta in Hn.
  destruct Hn as [_ [_ [_ [Hmin _]]]]. simpl in Hmin.
  assert (Hsaved : saved_min_intensities a = min_intensities acc) by (rewrite Ha; reflexivity).
  assert (Haxis : saved_mz_axis a = mz_axis) by (rewrite Ha; reflexivity).
  rewrite Hsaved, Haxis, Hmin.
  pose proof (orig_of_shape imzb mz_axis Hshape) as Himgs.
  pose proof (fold_update_min_length _ _ _ Himgs (repeat_length PInf _)) as Hlen.
  rewrite (nth_error_nth' _ NaN) by lia.
  rewrite (fold_update_min_nth (height imzb * width imzb) k NaN); auto;
    [| apply repeat_length].
  rewrite nth_repeat_lt by auto. rewrite map_map.
  destruct (readings_cases (map (fun bin => nth k (orig_of imzb bin) 0) mz_axis))
    as [Hnone|Hsome].
  - left. rewrite pixel_min_unchanged; auto.
  - right. destruct (pixel_min_from_infinity _ Hsome) as [m [Hm' [Hpos [Hinm _]]]].
    apply in_map_iff in Hinm. destruct Hinm as [bin [Ebin Hbin]].
    exists m, bin. rewrite Hm'. auto.
Qed.

Lemma min_intensities_entries_witness :
  exists a,
    main (Demo.ext Demo.axis11) (Demo.args 10)
    = Some ([OpenInput "in.imzb"; SaveArchive "out.npz" a], inr tt)
    /\ (nth_error (saved_min_intensities a) 0 = Some PInf
        \/ exists m bin,
             nth_error (saved_min_intensities a) 0 = Some (Fin m)
             /\ 0 < m
             /\ In bin (saved_mz_axis a)
             /\ nth 0 (orig_of (Demo.reader "in.imzb") bin) 0 = m).
Proof.
  eexists. split; [vm_compute; reflexivity|].
  refine (min_intensities_entries (Demo.ext Demo.axis11) (Demo.args 10) _ _ "out.npz" _ 0%nat
            (demo_reader_shape "in.imzb") _ _ _).
  - vm_compute. reflexivity.
  - right; left; reflexivity.
  - simpl. lia.
Defined.

Lemma noise_loop_fails ext imzb W H_full : forall mz_axis acc i,
  noise_loop ext imzb W H_full acc i mz_axis = inl ZeroDivisionError ->
  mz_axis <> [] /\ (height imzb * width imzb = 0)%nat.
Proof.
  intros mz_axis acc i H. split.
  - intros ->. discriminate.
  - apply noise_loop_error in H. destruct H as [H|[H|[_ H]]]; auto; discriminate.
Qed.

(** X14.  For a reader returning images of the dataset's shape the division
    by the number of pixels never fails: no run ends with a
    [ZeroDivisionError], because a dataset without pixels is already
    rejected when its first image is cleaned. *)
Theorem no_zero_division (ext : Extern) (args : Args)
    (t : list event) (res : result unit) :
  reader_shape (ImzbReader ext (input args)) ->
  main ext args = Some (t, res) ->
  res <> inl ZeroDivisionError.
Proof.
  intros Hshape Hm Hres. subst res. unfold main in Hm.
  destruct (rank args <? 10)%Z; [discriminate|].
  destruct (pipeline ext args) as [[e|a]|] eqn:Hp; [| discriminate | discriminate].
  inversion Hm; subst; clear Hm.
  unfold pipeline in Hp. cbn zeta in Hp. cbn [fst snd] in Hp.
  destruct (Qltb 0 _); simpl in Hp; [|discriminate].
  destruct (Qltb 1 _); simpl in Hp; [|discriminate].
  destruct (da_Array _) as [e|[]] eqn:Eda; simpl in Hp.
  { unfold da_Array in Eda. destruct (chunks_mz _); [|discriminate]. congruence. }
  destruct (compute_arr _ _) as [e|arr] eqn:Earr; simpl in Hp.
  { apply compute_arr_error in Earr. congruence. }
  destruct (xray _ _ _ _) as [[e|[n st]]|] eqn:Ex; [| |discriminate].
  { apply xray_loop_error in Ex. destruct Ex; congruence. }
  destruct (noise_pass _ _ _ _ _) as [e|acc] eqn:En; simpl in Hp; [|discriminate].
  assert (He : e = ZeroDivisionError) by congruence. subst e.
  unfold noise_pass in En. apply noise_loop_fails in En. destruct En as [Hne Hzero].
  rewrite compute_arr_eq in Earr. unfold get_mz_images in Earr.
  destruct (generate_mz_axis _ _ _ _ _) as [|bin rest]; [congruence|].
  simpl in Earr.
  destruct (clean_image _) as [e'|img] eqn:Ec; simpl in Earr; [discriminate|].
  pose proof (Hshape (fst bin) (snd bin)) as Hlen. rewrite Hzero in Hlen.
  apply length_zero_iff_nil in Hlen. rewrite Hlen in Ec. discriminate.
Qed.

Lemma no_zero_division_witness :
  exists t res,
    main (Demo.ext Demo.axis11) (Demo.args 10) = Some (t, res)
    /\ res <> inl ZeroDivisionError.
Proof.
  eexists _, _. split; [vm_compute; reflexivity|].
  refine (no_zero_division (Demo.ext Demo.axis11) (Demo.args 10) _ _
            (demo_reader_shape "in.imzb") _).
  vm_compute. reflexivity.
Defined.

(** X15.  A dataset whose images have no pixel, with at least one bin on the
    axis, is rejected while the array is computed: the percentile of the
    first (empty) image fails, the run ends with an [IndexError] and nothing
    is saved. *)
Theorem zero_pixel_dataset (ext : Extern) (args : Args) :
  let imzb := ImzbReader ext (input args) in
  (10 <= rank args)%Z ->
  1 # 10 < min_mz imzb ->
  9 # 10 < max_mz imzb ->
  reader_shape imzb ->
  (height imzb * width imzb = 0)%nat ->
  generate_mz_axis ext (min_mz imzb - (1 # 10)) (max_mz imzb + (1 # 10)) args 1 <> [] ->
  main ext args = Some ([OpenInput (input args)], inl IndexError).
Proof.
  intros imzb Hr Hmin Hmax Hshape Hzero Haxis. unfold main.
  assert (Hr' : (rank args <? 10)%Z = false) by (apply Z.ltb_ge; auto). rewrite Hr'.
  unfold pipeline. cbn zeta. fold imzb. cbn [fst snd].
  assert (E1 : Qltb 0 (min_mz imzb - (1 # 10)) = true) by (apply Qltb_true; lra).
  assert (E2 : Qltb 1 (max_mz imzb + (1 # 10)) = true) by (apply Qltb_true; lra).
  rewrite E1, E2. simpl.
  rewrite (da_Array_nonempty _ Haxis). simpl.
  rewrite compute_arr_eq. unfold get_mz_images.
  destruct (generate_mz_axis _ _ _ _ _) as [|bin rest]; [congruence|].
  simpl.
  pose proof (Hshape (fst bin) (snd bin)) as Hlen. rewrite Hzero in Hlen.
  apply length_zero_iff_nil in Hlen. rewrite Hlen. reflexivity.
Qed.

Lemma zero_pixel_dataset_witness :
  main {| ImzbReader := fun _ => {| min_mz := 100; max_mz := 110; height := 0; width := 2;
                                     get_mz_image := fun _ _ => [] |};
          generate_mz_axis := fun _ _ _ _ => Demo.axis11;
          nnlsm_blockpivot := Demo.solver;
          random_random := fun _ n => repeat (1 # 2) n;
          np_argsort := Demo.argsort;
          np_sqrt := Demo.sqrt; np_median := Demo.median; np_std := Demo.std |}
       (Demo.args 10)
  = Some ([OpenInput "in.imzb"], inl IndexError).
Proof.
  apply zero_pixel_dataset.
  - simpl. lia.
  - vm_compute. reflexivity.
  - vm_compute. reflexivity.
  - intros mz ppm. reflexivity.
  - reflexivity.
  - vm_compute. discriminate.
Defined.

(** X16.  With a solver that treats target columns independently, column
    [i] of the saved [H] is the solver's answer for the cleaned image of bin
    [i] alone against the saved basis: the coefficients are in axis order
    and the brightness ranking used for the selection does not reorder
    them. *)
Theorem saved_H_follows_axis (ext : Extern) (solve1 : matrix -> vec -> vec)
    (args : Args) (t : list event) (res : result unit) (path : string) (a : Archive)
    (i : nat) (bin : Q * Q) :
  (forall A B, nnlsm_blockpivot ext A B = map (solve1 A) B) ->
  main ext args = Some (t, res) ->
  In (SaveArchive path a) t ->
  nth_error (saved_mz_axis a) i = Some bin ->
  exists img,
    clean_image (get_mz_image (ImzbReader ext (input args)) (fst bin) (snd bin)) = inr img
    /\ nth_error (saved_H a) i = Some (solve1 (saved_W a) img).
Proof.
  intros Hs Hm Hin Hbin.
  destruct (main_saved _ _ _ _ _ _ Hm Hin) as [Hp _].
  apply pipeline_inv_full in Hp. cbn zeta in Hp.
  destruct Hp as [arr [n [st [acc [_ [_ [Harr [_ [_ Ha]]]]]]]]].
  rewrite Ha in Hbin |- *. cbn [saved_W saved_H saved_mz_axis] in *.
  assert (Hi : (i < length arr)%nat).
  { rewrite (compute_arr_length _ _ _ Harr). apply nth_error_Some. congruence. }
  destruct (compute_arr_nth _ _ _ i Harr Hi) as [bin' [Hbin' Hclean]].
  rewrite Hbin in Hbin'. inversion Hbin'; subst bin'.
  exists (nth i arr []). split; auto.
  rewrite (nnls_frob_columnwise ext solve1) by auto.
  rewrite nth_error_map, (nth_error_nth' arr []) by auto. reflexivity.
Qed.

Lemma saved_H_follows_axis_witness :
  exists a,
    main (Demo.ext Demo.axis11) (Demo.args 10)
    = Some ([OpenInput "in.imzb"; SaveArchive "out.npz" a], inr tt)
    /\ exists img,
         clean_image (get_mz_image (Demo.reader "in.imzb") 103 1) = inr img
         /\ nth_error (saved_H a) 3 = Some (Demo.nnls_column (saved_W a) img).
Proof.
  eexists. split; [vm_compute; reflexivity|].
  refine (saved_H_follows_axis (Demo.ext Demo.axis11) Demo.nnls_column (Demo.args 10)
            _ _ "out.npz" _ 3%nat (103, 1) _ _ _ _).
  - intros A B. reflexivity.
  - vm_compute. reflexivity.
  - right; left; reflexivity.
  - vm_compute. reflexivity.
Defined.

Lemma mat_sub_length X Y : length (mat_sub X Y) = Nat.min (length X) (length Y).
Proof. apply map2_length. Qed.

(** X17.  After any iteration that does not abort, the residual has one
    column per column of the working matrix, as it had on entry of the
    loop: every iteration scores every column of [x], none is dropped from
    the race. *)
Theorem residual_keeps_columns (ext : Extern) (npix : nat) (x : matrix)
    (st st' : xray_state) :
  xray_step ext npix x st = inr st' ->
  length (R st') = length x
  /\ length (raw_scores (random_random ext (length (cols st')) npix) (R st') x) = length x.
Proof.
  unfold xray_step. intros H.
  destruct (np_argmax _) as [e|b]; simpl in H; [discriminate|].
  destruct (mem b (cols st)); [discriminate|].
  inversion H; subst; clear H. cbn [R cols].
  assert (Hl : length (mat_sub x (mat_mul npix (select_cols x (cols st ++ [b]))
                                    (nnls_frob ext x (select_cols x (cols st ++ [b])))))
               = length x).
  { rewrite mat_sub_length. unfold mat_mul. rewrite length_map, nnls_frob_length.
    apply Nat.min_id. }
  split; [exact Hl|].
  unfold raw_scores. rewrite map2_length, Hl. apply Nat.min_id.
Qed.

Lemma residual_keeps_columns_witness :
  exists st',
    xray_step (Demo.ext Demo.axis11) 2 [[1; 0]; [3; 0]; [3; 0]]
      {| cols := []; R := [[1; 0]; [3; 0]; [3; 0]] |} = inr st'
    /\ length (R st') = 3%nat.
Proof.
  eexists. split; [vm_compute; reflexivity|].
  refine (proj1 (residual_keeps_columns (Demo.ext Demo.axis11) 2 [[1; 0]; [3; 0]; [3; 0]]
                   {| cols := []; R := [[1; 0]; [3; 0]; [3; 0]] |} _ _)).
  vm_compute. reflexivity.
Defined.

(** ** The exclusion by -1 with an exact solver *)

Lemma dot_nonneg u v : nonneg u -> nonneg v -> 0 <= dot u v.
Proof.
  unfold nonneg. intros Hu; revert v.
  induction Hu as [|a u Ha Hu IH]; intros v Hv; simpl; [apply Qle_refl|].
  destruct Hv as [|b v Hb Hv]; [apply Qle_refl|].
  pose proof (Qmult_le_0_compat _ _ Ha Hb). specialize (IH v Hv). lra.
Qed.

Lemma dot_self_nonneg u : 0 <= dot u u.
Proof.
  induction u as [|a u IH]; simpl; [apply Qle_refl|].
  assert (0 <= a * a) by nra. lra.
Qed.

Lemma dot_vadd_r u : forall a b,
  length a = length b -> dot u (vadd a b) == dot u a + dot u b.
Proof.
  induction u as [|c u IH]; intros [|x a] [|y b] Hl; simpl in *; try discriminate;
    try ring.
  rewrite IH by lia. ring.
Qed.

Lemma dot_vscale_r u : forall c a, dot u (vscale c a) == c * dot u a.
Proof.
  induction u as [|x u IH]; intros c [|y a]; unfold vscale; cbn [map dot]; try ring.
  fold (vscale c a). rewrite IH. ring.
Qed.

Lemma dot_repeat0_r u : forall n, dot u (repeat 0 n) == 0.
Proof.
  induction u as [|x u IH]; intros [|n]; simpl; try reflexivity.
  rewrite IH. ring.
Qed.

Lemma dot_repeat0_l v : forall n, dot (repeat 0 n) v == 0.
Proof.
  induction v as [|x v IH]; intros [|n]; simpl; try reflexivity.
  rewrite IH. ring.
Qed.

Lemma dot_comm u : forall v, dot u v == dot v u.
Proof.
  induction u as [|x u IH]; intros [|y v]; simpl; try reflexivity.
  rewrite IH. ring.
Qed.

Lemma dot_mat_vec npix u A : forall h,
  Forall (fun c => length c = npix) A ->
  dot u (mat_vec npix A h) == dot h (map (dot u) A).
Proof.
  induction A as [|a A IH]; intros h HA; simpl.
  - rewrite dot_repeat0_r. destruct h; reflexivity.
  - destruct h as [|c h]; simpl; [apply dot_repeat0_r|].
    inversion HA as [|? ? Ha HA']; subst.
    rewrite dot_vadd_r.
    + rewrite dot_vscale_r, IH by auto. reflexivity.
    + unfold vscale. rewrite length_map, mat_vec_length; auto.
Qed.

Lemma dot_vsub_split : forall x y,
  length x = length y ->
  dot (vsub x y) x == dot (vsub x y) (vsub x y) + dot (vsub x y) y.
Proof.
  induction x as [|a x IH]; intros [|b y] Hl; simpl in *; try discriminate;
    try reflexivity.
  unfold vsub in IH. rewrite IH by lia. ring.
Qed.

Lemma fdiv_above_minus_one a b :
  0 <= a -> 0 <= b -> fgt (fdiv a b) (Fin (-1)) = true.
Proof.
  intros Ha Hb. unfold fdiv.
  destruct (Qeq_bool b 0) eqn:Eb.
  - destruct (Qeq_bool a 0) eqn:Ea; [reflexivity|].
    assert (Hpos : Qltb 0 a = true).
    { apply Qltb_true. apply Qeq_bool_neq in Ea.
      destruct (Qlt_le_dec 0 a) as [H|H]; auto.
      exfalso. apply Ea. lra. }
    rewrite Hpos. reflexivity.
  - simpl. apply Qltb_true. apply Qeq_bool_neq in Eb.
    assert (Hbpos : 0 < b).
    { destruct (Qlt_le_dec 0 b) as [H|H]; auto. exfalso. apply Eb. lra. }
    assert (0 <= a / b) by (apply Qle_shift_div_l; lra).
    lra.
Qed.

Lemma select_cols_shape npix x cols :
  Forall (fun c => length c = npix) x ->
  Forall (fun j => (j < length x)%nat) cols ->
  Forall (fun c => length c = npix) (select_cols x cols).
Proof.
  intros Hx Hc. unfold select_cols. apply Forall_forall. intros c Hin.
  apply in_map_iff in Hin. destruct Hin as [j [<- Hj]].
  rewrite Forall_forall in Hx, Hc. apply Hx. apply nth_In. auto.
Qed.

Lemma unselected_column_exists n cols :
  (length cols < n)%nat -> exists j, (j < n)%nat /\ mem j cols = false.
Proof.
  intros Hlen.
  destruct (existsb (fun j => negb (mem j cols)) (seq 0 n)) eqn:E.
  - apply existsb_exists in E. destruct E as [j [Hj Hm]].
    apply in_seq in Hj. apply negb_true_iff in Hm. exists j. split; [lia | auto].
  - exfalso.
    assert (Hincl : incl (seq 0 n) cols).
    { intros j Hj. apply mem_In.
      destruct (mem j cols) eqn:Em; auto.
      assert (Ht : existsb (fun j => negb (mem j cols)) (seq 0 n) = true).
      { apply existsb_exists. exists j. rewrite Em. auto. }
      congruence. }
    pose proof (NoDup_incl_length (seq_NoDup n 0) Hincl) as Hle.
    rewrite length_seq in Hle. lia.
Qed.

Lemma residual_column ext npix x sel solve1 j :
  (forall A B, nnlsm_blockpivot ext A B = map (solve1 A) B) ->
  (j < length x)%nat ->
  nth j (mat_sub x (mat_mul npix sel (nnls_frob ext x sel))) []
  = vsub (nth j x []) (mat_vec npix sel (solve1 sel (nth j x []))).
Proof.
  intros Hs Hj. rewrite (nnls_frob_columnwise ext solve1) by auto.
  unfold mat_sub, mat_mul. rewrite map_map.
  rewrite (nth_map2 vsub _ _ j [] [] []); [| auto | rewrite length_map; auto].
  f_equal.
  rewrite (nth_indep _ [] ((fun b => mat_vec npix sel (solve1 sel b)) []))
    by (rewrite length_map; auto).
  apply (map_nth (fun b => mat_vec npix sel (solve1 sel b))).
Qed.

Lemma step_keeps_numerators ext npix x solve1 st st' :
  solver_slack ext npix solve1 ->
  Forall (fun c => length c = npix) x ->
  Forall (fun j => (j < length x)%nat) (cols st) ->
  xray_step ext npix x st = inr st' ->
  forall j, (j < length x)%nat -> 0 <= dot (nth j (R st') []) (nth j x []).
Proof.
  intros [Hcol Hslack] Hx Hrange Hs j Hj.
  destruct (xray_step_fresh _ _ _ _ _ Hs) as [b [Hc [_ Hb]]].
  assert (Hsel : Forall (fun c => length c = npix) (select_cols x (cols st'))).
  { apply select_cols_shape; auto. rewrite Hc. apply Forall_app; auto. }
  assert (HR : R st' = mat_sub x (mat_mul npix (select_cols x (cols st'))
                                    (nnls_frob ext x (select_cols x (cols st'))))).
  { unfold xray_step in Hs.
    destruct (np_argmax _) as [e|b']; simpl in Hs; [discriminate|].
    destruct (mem b' (cols st)); [discriminate|].
    inversion Hs; subst st'. reflexivity. }
  rewrite HR. set (sel := select_cols x (cols st')) in *.
  rewrite (residual_column ext npix x sel solve1 j Hcol Hj).
  set (xj := nth j x []).
  assert (Hxj : length xj = npix).
  { rewrite Forall_forall in Hx. apply Hx. apply nth_In. auto. }
  change (0 <= dot (vsub xj (mat_vec npix sel (solve1 sel xj))) xj).
  rewrite dot_vsub_split by (rewrite mat_vec_length; auto).
  rewrite (dot_mat_vec npix _ sel (solve1 sel xj) Hsel).
  rewrite (Hslack sel xj Hsel Hxj).
  pose proof (dot_self_nonneg (vsub xj (mat_vec npix sel (solve1 sel xj)))). lra.
Qed.

Lemma xray_step_residual_length ext npix x st st' :
  xray_step ext npix x st = inr st' -> length (R st') = length x.
Proof.
  unfold xray_step. intros H.
  destruct (np_argmax _) as [e|b]; simpl in H; [discriminate|].
  destruct (mem b (cols st)); [discriminate|].
  inversion H; subst; clear H. cbn [R].
  rewrite mat_sub_length. unfold mat_mul. rewrite length_map, nnls_frob_length.
  apply Nat.min_id.
Qed.

Lemma loop_completes ext npix x r solve1 :
  solver_slack ext npix solve1 ->
  probe_nonneg ext ->
  nonneg_matrix x ->
  Forall (fun c => length c = npix) x ->
  (r <= Z.of_nat (length x))%Z ->
  forall fuel iters st,
    Forall (fun j => (j < length x)%nat) (cols st) ->
    length (R st) = length x ->
    (forall j, (j < length x)%nat -> 0 <= dot (nth j (R st) []) (nth j x [])) ->
    (r - Z.of_nat (length (cols st)) <= Z.of_nat fuel)%Z ->
    exists n st', xray_loop ext npix x r fuel iters st = Some (inr (n, st')).
Proof.
  intros Hslack Hprobe Hnn Hx Hr.
  induction fuel as [|fuel IH]; intros iters st Hrange HR Hnum Hfuel; cbn [xray_loop].
  - destruct (Z.of_nat (length (cols st)) <? r)%Z eqn:E; [|eauto].
    apply Z.ltb_lt in E. lia.
  - destruct (Z.of_nat (length (cols st)) <? r)%Z eqn:E; [|eauto].
    apply Z.ltb_lt in E.
    destruct (unselected_column_exists (length x) (cols st)) as [j [Hj Hm]]; [lia|].
    set (p := random_random ext (length (cols st)) npix).
    assert (Hlen : length (raw_scores p (R st) x) = length x).
    { unfold raw_scores. rewrite map2_length, HR. apply Nat.min_id. }
    assert (Hscore : fgt (nth j (raw_scores p (R st) x) NaN) (Fin (-1)) = true).
    { unfold raw_scores.
      rewrite (nth_map2 _ (R st) x j [] [] NaN) by lia.
      apply fdiv_above_minus_one; [apply Hnum; auto|].
      apply dot_nonneg; [apply Hprobe|].
      apply Forall_nth_default; [constructor | exact Hnn]. }
    destruct (xray_step_succeeds ext npix x st j) as [st' Hs]; auto.
    { fold p. lia. }
    rewrite Hs.
    destruct (xray_step_fresh _ _ _ _ _ Hs) as [b [Hc [_ Hb]]].
    apply IH.
    + rewrite Hc. apply Forall_app; auto.
    + eapply xray_step_residual_length; eauto.
    + eapply step_keeps_numerators; eauto.
    + rewrite Hc, length_app. simpl. lia.
Qed.

(** X18.  With an exact solver the exclusion by -1 is enough.  If the solver
    treats target columns independently and its solutions satisfy
    complementary slackness, the probe and the working matrix have no
    negative entry, the columns have the dataset's length and the rank does
    not exceed the number of columns, then no iteration aborts: every score
    of a column that is not selected yet is NaN, +infinity or at least 0,
    hence above -1, and the loop ends with the requested columns. *)
Theorem exact_solver_never_aborts (ext : Extern) (npix : nat) (x : matrix) (r : Z)
    (solve1 : matrix -> vec -> vec) :
  solver_slack ext npix solve1 ->
  probe_nonneg ext ->
  nonneg_matrix x ->
  Forall (fun c => length c = npix) x ->
  (r <= Z.of_nat (length x))%Z ->
  exists n st,
    xray ext npix x r = Some (inr (n, st))
    /\ Z.of_nat (length (cols st)) = Z.max r 0
    /\ NoDup (cols st).
Proof.
  intros Hslack Hprobe Hnn Hx Hr.
  destruct (loop_completes ext npix x r solve1 Hslack Hprobe Hnn Hx Hr
              (Z.to_nat r) 0%nat {| cols := []; R := x |}) as [n [st Hrun]].
  - constructor.
  - reflexivity.
  - intros j Hj. simpl. apply dot_self_nonneg.
  - simpl. lia.
  - exists n, st. split; [exact Hrun|].
    apply xray_loop_spec in Hrun; [| constructor | constructor].
    destruct Hrun as [Hnd [_ [Hlen _]]]. simpl in Hlen. auto.
Qed.

Lemma dot_vsub_r u : forall a b,
  length a = length b -> dot u (vsub a b) == dot u a - dot u b.
Proof.
  induction u as [|c u IH]; intros [|x a] [|y b] Hl; simpl in *; try discriminate;
    try ring.
  unfold vsub in IH. rewrite IH by lia. ring.
Qed.

Lemma demo_projection npix b : forall A,
  Forall (fun c => length c = npix) A ->
  exists c a,
    (c == 0 \/ (~ dot a a == 0 /\ c == dot a b / dot a a))
    /\ forall u, dot u (mat_vec npix A (Demo.nnls_column A b)) == c * dot u a.
Proof.
  induction A as [|a0 A IH]; intros HA.
  - exists 0, []. split; [left; reflexivity|].
    intros u. simpl. rewrite dot_repeat0_r. ring.
  - pose proof (Forall_inv HA) as Ha0. pose proof (Forall_inv_tail HA) as HA'.
    cbv beta in Ha0.
    cbn [Demo.nnls_column]. destruct (Qeq_bool (dot a0 a0) 0) eqn:E.
    + destruct (IH HA') as [c [a [Hc Hu]]]. exists c, a. split; auto.
      intros u. cbn [mat_vec].
      rewrite dot_vadd_r by (unfold vscale; rewrite length_map, mat_vec_length; auto).
      rewrite dot_vscale_r, Hu. ring.
    + apply Qeq_bool_neq in E.
      exists (if Qltb (dot a0 b / dot a0 a0) 0 then 0 else dot a0 b / dot a0 a0), a0.
      split.
      * destruct (Qltb (dot a0 b / dot a0 a0) 0); [left | right; split; auto]; reflexivity.
      * intros u. cbn [mat_vec].
        rewrite dot_vadd_r by (unfold vscale; rewrite length_map, mat_vec_length; auto).
        rewrite dot_vscale_r, (dot_mat_vec npix u A _ HA'), dot_repeat0_l. ring.
Qed.

Lemma demo_solver_slack npix axis : solver_slack (Demo.ext axis) npix Demo.nnls_column.
Proof.
  split; [intros A B; reflexivity|].
  intros A b HA Hb.
  set (h := Demo.nnls_column A b). set (y := mat_vec npix A h).
  rewrite <- (dot_mat_vec npix (vsub b y) A h HA). fold y.
  destruct (demo_projection npix b A HA) as [c [a [Hc Hu]]]. fold h y in Hu.
  rewrite (Hu (vsub b y)), (dot_comm (vsub b y) a).
  rewrite dot_vsub_r by (unfold y; rewrite mat_vec_length; auto).
  rewrite (Hu a).
  destruct Hc as [Hc|[Hne Hc]].
  - rewrite Hc. ring.
  - rewrite Hc. field. exact Hne.
Qed.

Lemma exact_solver_never_aborts_witness :
  exists n st,
    xray (Demo.ext Demo.axis11) 2 [[3; 0]; [0; 0]; [2; 0]; [1; 0]] 3 = Some (inr (n, st))
    /\ Z.of_nat (length (cols st)) = Z.max 3 0
    /\ NoDup (cols st).
Proof.
  apply (exact_solver_never_aborts (Demo.ext Demo.axis11) 2
           [[3; 0]; [0; 0]; [2; 0]; [1; 0]] 3 Demo.nnls_column).
  - apply demo_solver_slack.
  - intros draw n. simpl. apply Forall_forall. intros v Hv.
    apply repeat_spec in Hv. subst. vm_compute. discriminate.
  - repeat constructor; vm_compute; discriminate.
  - repeat constructor.
  - simpl. lia.
Defined.
